(** * yawf: request dispatch core

    A shallow embedding of the Go sources of yawf (context, route, router,
    return handlers, server lifecycle) together with the properties of the
    design document that can be stated over it.

    Conventions.
    - Go strings are modelled as [string] (sequences of single-byte
      characters); a regular expression works on one character at a time.
    - Go's [int] is modelled as [Z]; [int32] as [Z] with its wrap-around
      written out.
    - A panic is a result of its own ([Panic]), never a missing value. *)

From Stdlib Require Import String Ascii List ZArith Lia Bool Arith.
From Stdlib Require Import DecimalString.
From Stdlib Require Import Sorted.
Import ListNotations.
Open Scope string_scope.

Set Implicit Arguments.

(* ------------------------------------------------------------------ *)
(** * Strings *)

Module Str.

(** [len(s) == 0] *)
Definition is_empty (s : string) : bool :=
  match s with EmptyString => true | String _ _ => false end.

(** [s[:len(s)-len(rest)]]: the part of [s] in front of its suffix [rest]. *)
Definition taken (s rest : string) : string :=
  substring 0 (String.length s - String.length rest) s.

(** [strconv.FormatInt(int64(v), 10)] *)
Definition format_int (z : Z) : string :=
  NilZero.string_of_int (Z.to_int z).

(** [fmt.Sprintf("%d", n)] for a counter. *)
Definition format_nat (n : nat) : string :=
  NilZero.string_of_uint (Nat.to_uint n).

Definition is_digit (c : ascii) : bool :=
  let n := nat_of_ascii c in ((48 <=? n) && (n <=? 57))%nat.

Definition is_alpha (c : ascii) : bool :=
  let n := nat_of_ascii c in
  (((65 <=? n) && (n <=? 90)) || ((97 <=? n) && (n <=? 122)))%nat.

Definition is_alnum (c : ascii) : bool := is_digit c || is_alpha c.

(** A word character, as a capture name wants them. *)
Definition is_word (c : ascii) : bool := is_alnum c || Ascii.eqb c "_".

Fixpoint all_chars (p : ascii -> bool) (s : string) : bool :=
  match s with
  | EmptyString => true
  | String c s' => p c && all_chars p s'
  end.

End Str.

(* ------------------------------------------------------------------ *)
(** * The regular expressions of Go's [regexp], as far as routes use them

    The package is a collaborator of the router, not part of it.  The model
    covers the syntax that route patterns are made of: literals, [.],
    bracket classes, groups (plain, named, non-capturing), the greedy
    operators [*], [+], [?], alternation and escaped punctuation.  Anything
    else makes [compile] answer [None], as does a pattern Go rejects.
    Matching is leftmost-first, by backtracking in priority order. *)

Module Regexp.

Inductive regex : Type :=
| Eps
| Chr (c : ascii)
| Dot
| Cls (neg : bool) (ranges : list (ascii * ascii))
| Cat (r1 r2 : regex)
| Alt (r1 r2 : regex)
| Star (r : regex)
| Plus (r : regex)
| Opt (r : regex)
| Grp (i : nat) (r : regex).

(** A compiled expression: its syntax tree and the names of its groups
    ([SubexpNames]: entry 0 is the whole match and has no name). *)
Record Regexp : Type := mkRegexp {
  re_tree : regex;
  re_names : list string
}.

Definition newline : ascii := "010"%char.

Definition in_range (c : ascii) (r : ascii * ascii) : bool :=
  ((nat_of_ascii (fst r) <=? nat_of_ascii c)
   && (nat_of_ascii c <=? nat_of_ascii (snd r)))%nat.

Definition in_class (neg : bool) (ranges : list (ascii * ascii)) (c : ascii) : bool :=
  xorb neg (existsb (in_range c) ranges).

(** ** Matching *)

(** The text captured by each group so far, most recent first. *)
Definition caps : Type := list (nat * string).

Section Matcher.
Variable T : Type.

Definition cont : Type := string -> caps -> option T.

(** Greedy iteration; an iteration that consumes nothing is not taken. *)
Fixpoint star_loop (step : string -> caps -> cont -> option T) (n : nat)
         (s : string) (cs : caps) (k : cont) : option T :=
  match n with
  | O => k s cs
  | S n' =>
      match step s cs (fun s' cs' =>
                         if (String.length s' <? String.length s)%nat
                         then star_loop step n' s' cs' k
                         else None) with
      | Some x => Some x
      | None => k s cs
      end
  end.

Definition one_char (p : ascii -> bool) (s : string) (cs : caps) (k : cont) : option T :=
  match s with
  | EmptyString => None
  | String a s' => if p a then k s' cs else None
  end.

Fixpoint exec (r : regex) (s : string) (cs : caps) (k : cont) {struct r} : option T :=
  match r with
  | Eps => k s cs
  | Chr c => one_char (fun a => Ascii.eqb a c) s cs k
  | Dot => one_char (fun a => negb (Ascii.eqb a newline)) s cs k
  | Cls neg ranges => one_char (in_class neg ranges) s cs k
  | Cat r1 r2 => exec r1 s cs (fun s1 cs1 => exec r2 s1 cs1 k)
  | Alt r1 r2 =>
      match exec r1 s cs k with
      | Some x => Some x
      | None => exec r2 s cs k
      end
  | Star r1 => star_loop (exec r1) (String.length s) s cs k
  | Plus r1 =>
      exec r1 s cs (fun s1 cs1 => star_loop (exec r1) (String.length s1) s1 cs1 k)
  | Opt r1 =>
      match exec r1 s cs k with
      | Some x => Some x
      | None => k s cs
      end
  | Grp i r1 => exec r1 s cs (fun s1 cs1 => k s1 ((i, Str.taken s s1) :: cs1))
  end.
End Matcher.

(** A match that starts at the head of [s]: the rest of [s] behind it. *)
Definition match_here (r : regex) (s : string) : option (string * caps) :=
  exec r s [] (fun s' cs => Some (s', cs)).

(** The leftmost match in [s]: the text in front of it, the match, the
    text behind it, and the captures. *)
Fixpoint find (r : regex) (s : string) : option (string * string * string * caps) :=
  match match_here r s with
  | Some (rest, cs) => Some (EmptyString, Str.taken s rest, rest, cs)
  | None =>
      match s with
      | EmptyString => None
      | String a s1 =>
          match find r s1 with
          | Some (pre, mt, rest, cs) => Some (String a pre, mt, rest, cs)
          | None => None
          end
      end
  end.

Fixpoint cap_lookup (i : nat) (cs : caps) : string :=
  match cs with
  | [] => EmptyString
  | (j, t) :: cs' => if Nat.eqb i j then t else cap_lookup i cs'
  end.

Definition SubexpNames (re : Regexp) : list string := re_names re.

(** [re.FindStringSubmatch(s)]: the match and the text of each group, or
    the empty slice. *)
Definition FindStringSubmatch (re : Regexp) (s : string) : list string :=
  match find (re_tree re) s with
  | None => []
  | Some (_, mt, _, cs) =>
      mt :: map (fun i => cap_lookup i cs) (seq 1 (List.length (re_names re) - 1))
  end.

(** [re.ReplaceAllStringFunc(src, repl)], with the state the closure
    [repl] updates threaded through.  [s] is the source from the end of the
    last match; [adv] tells that the search starts one character further
    (after an empty match); [first] that no text has been passed yet. *)
Section Replace.
Variable St : Type.
Variable r : regex.
Variable repl : St -> string -> St * string.

Fixpoint replace_loop (fuel : nat) (s : string) (adv first : bool) (st : St)
  : St * string :=
  match fuel with
  | O => (st, s)
  | S fuel' =>
      match (if adv
             then match s with
                  | EmptyString => None
                  | String c s1 => Some (String c EmptyString, s1)
                  end
             else Some (EmptyString, s)) with
      | None => (st, s)
      | Some (skipped, from) =>
          match find r from with
          | None => (st, s)
          | Some (pre, mt, rest, _) =>
              let nothing := Str.is_empty skipped && Str.is_empty pre && Str.is_empty mt in
              let '(st1, out) :=
                if negb nothing || first then repl st mt else (st, EmptyString) in
              let '(st2, tl) :=
                replace_loop fuel' rest (Str.is_empty pre && Str.is_empty mt)
                             (first && nothing) st1 in
              (st2, skipped ++ pre ++ out ++ tl)
          end
      end
  end.

Definition ReplaceAllStringFunc (src : string) (st : St) : St * string :=
  replace_loop (2 * String.length src + 2) src false true st.
End Replace.

(** ** Parsing *)

(** Parser state: the number of groups opened so far and their names,
    latest first. *)
Definition pstate : Type := (nat * list string)%type.

Definition is_punct (c : ascii) : bool :=
  (nat_of_ascii c <? 128)%nat && negb (Str.is_alnum c).

Definition is_rep_op (c : ascii) : bool :=
  Ascii.eqb c "*" || Ascii.eqb c "+" || Ascii.eqb c "?".

(** One character of a bracket class, escaped or not. *)
Definition class_char (s : string) : option (ascii * string) :=
  match s with
  | EmptyString => None
  | String "\" (String c s') => if is_punct c then Some (c, s') else None
  | String "\" EmptyString => None
  | String c s' => Some (c, s')
  end.

(** The items of a bracket class up to its closing bracket. *)
Fixpoint class_items (fuel : nat) (s : string) (first : bool)
  : option (list (ascii * ascii) * string) :=
  match fuel with
  | O => None
  | S fuel' =>
      match s with
      | EmptyString => None
      | String c s0 =>
          if Ascii.eqb c "]" && negb first then Some ([], s0)
          else if Ascii.eqb c "[" && (match s0 with String ":" _ => true | _ => false end)
          then None
          else
            match class_char s with
            | None => None
            | Some (lo, s1) =>
                match s1 with
                | String "-" (String d s2) =>
                    if Ascii.eqb d "]"
                    then match class_items fuel' s1 false with
                         | Some (items, s3) => Some ((lo, lo) :: items, s3)
                         | None => None
                         end
                    else match class_char (String d s2) with
                         | None => None
                         | Some (hi, s3) =>
                             if (nat_of_ascii hi <? nat_of_ascii lo)%nat then None
                             else match class_items fuel' s3 false with
                                  | Some (items, s4) => Some ((lo, hi) :: items, s4)
                                  | None => None
                                  end
                         end
                | _ =>
                    match class_items fuel' s1 false with
                    | Some (items, s3) => Some ((lo, lo) :: items, s3)
                    | None => None
                    end
                end
            end
      end
  end.

Definition parse_class (s : string) : option (regex * string) :=
  let '(neg, s1) := match s with
                    | String "^" s' => (true, s')
                    | _ => (false, s)
                    end in
  match class_items (S (String.length s1)) s1 true with
  | Some (items, s2) => Some (Cls neg items, s2)
  | None => None
  end.

(** The name of a named group, up to its closing [>]. *)
Fixpoint group_name (s : string) : option (string * string) :=
  match s with
  | EmptyString => None
  | String ">" s' => Some (EmptyString, s')
  | String c s' =>
      match group_name s' with
      | Some (n, s2) => Some (String c n, s2)
      | None => None
      end
  end.

Definition valid_name (n : string) : bool :=
  negb (Str.is_empty n) && Str.all_chars Str.is_word n.

Fixpoint parse_alt (fuel : nat) (s : string) (st : pstate) {struct fuel}
  : option (regex * string * pstate) :=
  match fuel with
  | O => None
  | S fuel' =>
      match parse_cat fuel' s st with
      | None => None
      | Some (r1, s1, st1) =>
          match s1 with
          | String "|" s2 =>
              match parse_alt fuel' s2 st1 with
              | Some (r2, s3, st2) => Some (Alt r1 r2, s3, st2)
              | None => None
              end
          | _ => Some (r1, s1, st1)
          end
      end
  end

with parse_cat (fuel : nat) (s : string) (st : pstate) {struct fuel}
  : option (regex * string * pstate) :=
  match fuel with
  | O => None
  | S fuel' =>
      match s with
      | EmptyString => Some (Eps, s, st)
      | String c _ =>
          if Ascii.eqb c "|" || Ascii.eqb c ")" then Some (Eps, s, st)
          else
            match parse_rep fuel' s st with
            | None => None
            | Some (r1, s1, st1) =>
                match parse_cat fuel' s1 st1 with
                | Some (r2, s2, st2) => Some (Cat r1 r2, s2, st2)
                | None => None
                end
            end
      end
  end

with parse_rep (fuel : nat) (s : string) (st : pstate) {struct fuel}
  : option (regex * string * pstate) :=
  match fuel with
  | O => None
  | S fuel' =>
      match parse_atom fuel' s st with
      | None => None
      | Some (r1, s1, st1) =>
          match s1 with
          | String op s2 =>
              if is_rep_op op then
                match s2 with
                | String c2 _ =>
                    if is_rep_op c2 then None
                    else Some ((if Ascii.eqb op "*" then Star r1
                                else if Ascii.eqb op "+" then Plus r1
                                else Opt r1), s2, st1)
                | EmptyString =>
                    Some ((if Ascii.eqb op "*" then Star r1
                           else if Ascii.eqb op "+" then Plus r1
                           else Opt r1), s2, st1)
                end
              else Some (r1, s1, st1)
          | EmptyString => Some (r1, s1, st1)
          end
      end
  end

with parse_atom (fuel : nat) (s : string) (st : pstate) {struct fuel}
  : option (regex * string * pstate) :=
  match fuel with
  | O => None
  | S fuel' =>
      match s with
      | EmptyString => None
      | String "(" (String "?" (String ":" s1)) =>
          match parse_alt fuel' s1 st with
          | Some (r1, String ")" s2, st1) => Some (r1, s2, st1)
          | _ => None
          end
      | String "(" (String "?" (String "P" (String "<" s1))) =>
          match group_name s1 with
          | None => None
          | Some (name, s2) =>
              if valid_name name then
                let i := S (fst st) in
                match parse_alt fuel' s2 (i, name :: snd st) with
                | Some (r1, String ")" s3, st1) => Some (Grp i r1, s3, st1)
                | _ => None
                end
              else None
          end
      | String "(" (String "?" _) => None
      | String "(" s1 =>
          let i := S (fst st) in
          match parse_alt fuel' s1 (i, EmptyString :: snd st) with
          | Some (r1, String ")" s2, st1) => Some (Grp i r1, s2, st1)
          | _ => None
          end
      | String "[" s1 =>
          match parse_class s1 with
          | Some (r1, s2) => Some (r1, s2, st)
          | None => None
          end
      | String "." s1 => Some (Dot, s1, st)
      | String "\" (String c s1) =>
          if is_punct c then Some (Chr c, s1, st) else None
      | String "\" EmptyString => None
      | String c s1 =>
          if is_rep_op c || Ascii.eqb c ")" || Ascii.eqb c "|"
             || Ascii.eqb c "^" || Ascii.eqb c "$" || Ascii.eqb c "{"
          then None
          else Some (Chr c, s1, st)
      end
  end.

(** [regexp.Compile]; [None] where [MustCompile] panics (or the pattern
    leaves the modelled syntax). *)
Definition compile (src : string) : option Regexp :=
  match parse_alt (4 * String.length src + 4) src (0, []) with
  | Some (r, EmptyString, (_, names)) => Some (mkRegexp r (EmptyString :: rev names))
  | _ => None
  end.

(** ** What an expression denotes *)

Inductive lang : regex -> string -> Prop :=
| L_eps : lang Eps EmptyString
| L_chr c : lang (Chr c) (String c EmptyString)
| L_dot c : c <> newline -> lang Dot (String c EmptyString)
| L_cls neg ranges c :
    in_class neg ranges c = true -> lang (Cls neg ranges) (String c EmptyString)
| L_cat r1 r2 w1 w2 : lang r1 w1 -> lang r2 w2 -> lang (Cat r1 r2) (w1 ++ w2)
| L_alt_l r1 r2 w : lang r1 w -> lang (Alt r1 r2) w
| L_alt_r r1 r2 w : lang r2 w -> lang (Alt r1 r2) w
| L_star_nil r : lang (Star r) EmptyString
| L_star_cons r w1 w2 : lang r w1 -> lang (Star r) w2 -> lang (Star r) (w1 ++ w2)
| L_plus r w1 w2 : lang r w1 -> lang (Star r) w2 -> lang (Plus r) (w1 ++ w2)
| L_opt_nil r : lang (Opt r) EmptyString
| L_opt_some r w : lang r w -> lang (Opt r) w
| L_grp i r w : lang r w -> lang (Grp i r) w.

(** What a run of the matcher that succeeds has done: it has read a word
    of the expression and handed the rest to its continuation. *)
Definition reads (T : Type) (r : regex) (s : string) (k : cont T) (x : T) : Prop :=
  exists w s' cs', s = w ++ s' /\ lang r w /\ k s' cs' = Some x.

End Regexp.

(* ------------------------------------------------------------------ *)
(** * Results of fallible code *)

Inductive result (A : Type) : Type :=
| Done (a : A)
| Panic (msg : string)
| Blocked
| OutOfFuel.

Arguments Done {A} a.
Arguments Panic {A} msg.
Arguments Blocked {A}.
Arguments OutOfFuel {A}.

Definition bind {A B : Type} (m : result A) (f : A -> result B) : result B :=
  match m with
  | Done a => f a
  | Panic msg => Panic msg
  | Blocked => Blocked
  | OutOfFuel => OutOfFuel
  end.

Notation "x <- m ;; f" := (bind m (fun x => f))
  (at level 61, m at next level, right associativity).
Notation "' p <- m ;; f" := (bind m (fun p => f))
  (at level 61, p pattern, m at next level, right associativity).

(* ------------------------------------------------------------------ *)
(** * Values handlers return, and handlers *)

(** [reflect.Kind], as far as the return protocols look at it. *)
Inductive Kind : Type :=
| KInvalid | KBool | KInt | KString | KByteSlice | KPtr | KInterface | KOther.

(** A [reflect.Value] a handler returned. *)
Inductive Value : Type :=
| VInvalid
| VBool (b : bool)
| VInt (n : Z)
| VString (s : string)
| VBytes (b : string)
| VNilPtr
| VPtr (target : Value)
| VNilIface
| VIface (target : Value)
| VOther.

Definition kind_of (v : Value) : Kind :=
  match v with
  | VInvalid => KInvalid
  | VBool _ => KBool
  | VInt _ => KInt
  | VString _ => KString
  | VBytes _ => KByteSlice
  | VNilPtr | VPtr _ => KPtr
  | VNilIface | VIface _ => KInterface
  | VOther => KOther
  end.

Definition Kind_eqb (a b : Kind) : bool :=
  match a, b with
  | KInvalid, KInvalid | KBool, KBool | KInt, KInt | KString, KString
  | KByteSlice, KByteSlice | KPtr, KPtr | KInterface, KInterface
  | KOther, KOther => true
  | _, _ => false
  end.

(** [val.Elem()] of a pointer or interface; the zero Value for nil. *)
Definition Elem (v : Value) : Value :=
  match v with
  | VPtr t | VIface t => t
  | _ => VInvalid
  end.

(** [val.Bool()] *)
Definition as_bool (v : Value) : bool :=
  match v with VBool b => b | _ => false end.

(** [val.Int()] *)
Definition as_int (v : Value) : Z :=
  match v with VInt n => n | _ => 0%Z end.

(** [val.String()] *)
Definition as_string (v : Value) : string :=
  match v with VString s => s | _ => EmptyString end.

(** [val.Bytes()] *)
Definition as_bytes (v : Value) : string :=
  match v with VBytes b => b | _ => EmptyString end.

(** What a function given as a handler does, seen from the services it is
    handed: its [Context], the response writer.  A handler is a finite
    sequence of such calls that ends by returning values or by panicking. *)
Inductive script : Type :=
| Return (vals : list Value)
| Abort (msg : string)
| CallNext (k : script)
| CallStop (k : script)
| GetStopped (k : bool -> script)
| GetWritten (k : bool -> script)
| Write (body : string) (k : script)
| WriteHeader (status : Z) (k : script).

(** [type Handler interface{}]: any value; only functions can be invoked. *)
Inductive Handler : Type :=
| NotFunc
| Func (body : script).

(** [ValidateHandler] *)
Definition ValidateHandler (h : Handler) : result unit :=
  match h with
  | Func _ => Done tt
  | NotFunc => Panic "yawf handler must be a callable func"
  end.

(* ------------------------------------------------------------------ *)
(** * Routes (yawf.go) *)

Record route : Type := mkRoute {
  method : string;
  regex : Regexp.Regexp;
  handlers : list Handler;
  pattern : string;
  name : string
}.

(** [regexp.MustCompile] of a source known to compile. *)
Definition MustCompile (src : string)
  : match Regexp.compile src with Some _ => Regexp.Regexp | None => unit end :=
  match Regexp.compile src as o
        return match o with Some _ => Regexp.Regexp | None => unit end with
  | Some re => re
  | None => tt
  end.

Definition routeReg1 : Regexp.Regexp :=
  Eval vm_compute in MustCompile ":[^/#?()\.\\]+".

Definition routeReg2 : Regexp.Regexp :=
  Eval vm_compute in MustCompile "\*\*".

(** [m[1:]] *)
Definition tail (m : string) : string :=
  match m with EmptyString => EmptyString | String _ m' => m' end.

Definition newRoute (meth pat : string) (hs : list Handler) : result route :=
  let '(_, pattern1) :=
    Regexp.ReplaceAllStringFunc (Regexp.re_tree routeReg1)
      (fun (u : unit) m => (u, "(?P<" ++ tail m ++ ">[^/#?]+)")) pat tt in
  let '(_, pattern2) :=
    Regexp.ReplaceAllStringFunc (Regexp.re_tree routeReg2)
      (fun (index : nat) _ =>
         (S index, "(?P<_" ++ Str.format_nat (S index) ++ ">[^#?]*)")) pattern1 0 in
  let pattern3 := pattern2 ++ "\/?" in
  match Regexp.compile pattern3 with
  | Some re => Done (mkRoute meth re hs pat EmptyString)
  | None => Panic "regexp: Compile: error parsing regexp"
  end.

Inductive RouteMatch : Type :=
| NoMatch
| StarMatch
| OverloadMatch
| ExactMatch.

(** The value [iota] gives each constant. *)
Definition RouteMatch_int (m : RouteMatch) : Z :=
  match m with
  | NoMatch => 0
  | StarMatch => 1
  | OverloadMatch => 2
  | ExactMatch => 3
  end.

Definition RouteMatch_eqb (a b : RouteMatch) : bool :=
  (RouteMatch_int a =? RouteMatch_int b)%Z.

Definition BetterThan (r o : RouteMatch) : bool :=
  (RouteMatch_int r >? RouteMatch_int o)%Z.

Definition MatchMethod (r : route) (meth : string) : RouteMatch :=
  if String.eqb meth r.(method) then ExactMatch
  else if String.eqb meth "HEAD" && String.eqb r.(method) "GET" then OverloadMatch
  else if String.eqb r.(method) "*" then StarMatch
  else NoMatch.

(** [map[string]string], as the list of its bindings. *)
Definition PathParams : Type := list (string * string).

Fixpoint params_set (k v : string) (m : PathParams) : PathParams :=
  match m with
  | [] => [(k, v)]
  | (k', v') :: m' =>
      if String.eqb k k' then (k, v) :: m' else (k', v') :: params_set k v m'
  end.

Fixpoint params_get (k : string) (m : PathParams) : option string :=
  match m with
  | [] => None
  | (k', v') :: m' => if String.eqb k k' then Some v' else params_get k m'
  end.

(** The loop over [SubexpNames] in [Match]. *)
Fixpoint bind_params (names matches : list string) (params : PathParams) : PathParams :=
  match names, matches with
  | n :: names', m :: matches' =>
      bind_params names' matches'
        (if (0 <? String.length n)%nat then params_set n m params else params)
  | _, _ => params
  end.

Definition Match (r : route) (meth path : string) : RouteMatch * option PathParams :=
  let mt := MatchMethod r meth in
  if RouteMatch_eqb mt NoMatch then (mt, None)
  else
    let matches := Regexp.FindStringSubmatch r.(regex) path in
    if (0 <? List.length matches)%nat && String.eqb (nth 0 matches EmptyString) path
    then (mt, Some (bind_params (Regexp.SubexpNames r.(regex)) matches []))
    else (NoMatch, None).

(** [route.Validate] *)
Fixpoint Validate (hs : list Handler) : result unit :=
  match hs with
  | [] => Done tt
  | h :: hs' => _ <- ValidateHandler h ;; Validate hs'
  end.

Definition urlReg : Regexp.Regexp :=
  Eval vm_compute in MustCompile ":[^/#?()\.\\]+|\(\?P<[a-zA-Z0-9]+>.*\)".

Definition URLWith (r : route) (args : list string) : string :=
  if (0 <? List.length args)%nat then
    let argCount := List.length args in
    snd (Regexp.ReplaceAllStringFunc (Regexp.re_tree urlReg)
           (fun (i : nat) m =>
              (S i, if (i <? argCount)%nat then nth i args EmptyString else m))
           r.(pattern) 0)
  else r.(pattern).

Definition SetName (r : route) (n : string) : route :=
  mkRoute r.(method) r.(regex) r.(handlers) r.(pattern) n.

(* ------------------------------------------------------------------ *)
(** * The router's table (router.go) *)

Record group : Type := mkGroup {
  g_pattern : string;
  g_handlers : list Handler
}.

(** [routes] holds pointers in Go; a route handle is modelled as the
    position of the route in the table. *)
Record router : Type := mkRouter {
  routes : list route;
  notFounds : list Handler;
  groups : list group
}.

(** [http.NotFound] *)
Definition http_NotFound : Handler :=
  Func (WriteHeader 404 (Write ("404 page not found" ++ String Regexp.newline EmptyString)
                               (Return []))).

Definition NewRouter : router := mkRouter [] [http_NotFound] [].

Definition appendRoute (r : router) (rt : route) : router :=
  mkRouter (r.(routes) ++ [rt])%list r.(notFounds) r.(groups).

Definition addRoute (r : router) (meth pat : string) (hs : list Handler)
  : result (router * nat) :=
  let '(pat, hs) :=
    if (0 <? List.length r.(groups))%nat then
      (fold_left (fun acc g => acc ++ g.(g_pattern)) r.(groups) EmptyString ++ pat,
       (fold_left (fun acc g => acc ++ g.(g_handlers)) r.(groups) [] ++ hs)%list)
    else (pat, hs) in
  rt <- newRoute meth pat hs ;;
  _ <- Validate rt.(handlers) ;;
  Done (appendRoute r rt, List.length r.(routes)).

Fixpoint find_by_name (rts : list route) (n : string) : option route :=
  match rts with
  | [] => None
  | rt :: rts' => if String.eqb rt.(name) n then Some rt else find_by_name rts' n
  end.

Definition findRoute (r : router) (n : string) : option route :=
  find_by_name r.(routes) n.

(** [route.SetName] through the handle [addRoute] returned. *)
Fixpoint set_name_at (rts : list route) (i : nat) (n : string) : list route :=
  match rts, i with
  | [], _ => []
  | rt :: rts', O => SetName rt n :: rts'
  | rt :: rts', S i' => rt :: set_name_at rts' i' n
  end.

Definition router_SetName (r : router) (i : nat) (n : string) : router :=
  mkRouter (set_name_at r.(routes) i n) r.(notFounds) r.(groups).

(** An argument of [URLFor], by its dynamic type. *)
Inductive Param : Type :=
| PInt (v : Z)
| PString (s : string)
| PNil
| POther.

Fixpoint url_args (params : list Param) (args : list string) : result (list string) :=
  match params with
  | [] => Done args
  | PInt v :: ps => url_args ps (args ++ [Str.format_int v])%list
  | PString s :: ps => url_args ps (args ++ [s])%list
  | PNil :: ps => url_args ps args
  | POther :: _ => Panic "Arguments passed to URLFor must be integers or strings"
  end.

Definition URLFor (r : router) (n : string) (params : list Param) : result string :=
  match findRoute r n with
  | None => Panic "route not found"
  | Some rt =>
      args <- url_args params [] ;;
      Done (URLWith rt args)
  end.

Definition hasMethod (methods : list string) (m : string) : bool :=
  existsb (fun v => String.eqb v m) methods.

Definition MethodsFor (r : router) (path : string) : list string :=
  fold_left
    (fun methods rt =>
       let matches := Regexp.FindStringSubmatch rt.(regex) path in
       if (0 <? List.length matches)%nat && String.eqb (nth 0 matches EmptyString) path
          && negb (hasMethod methods rt.(method))
       then (methods ++ [rt.(method)])%list else methods)
    r.(routes) [].

(** The state of the loop of [router.Handle]; [examined] counts the routes
    the loop has looked at (it is not in the source). *)
Record best : Type := mkBest {
  bestMatch : RouteMatch;
  bestVals : option PathParams;
  bestRoute : option route;
  examined : nat
}.

Fixpoint scan (rts : list route) (meth path : string) (b : best) : best :=
  match rts with
  | [] => b
  | rt :: rts' =>
      let '(m, vals) := Match rt meth path in
      if BetterThan m b.(bestMatch) then
        let b' := mkBest m vals (Some rt) (S b.(examined)) in
        if RouteMatch_eqb m ExactMatch then b' else scan rts' meth path b'
      else scan rts' meth path (mkBest b.(bestMatch) b.(bestVals) b.(bestRoute) (S b.(examined)))
  end.

Definition NotFound (r : router) (hs : list Handler) : router :=
  mkRouter r.(routes) hs r.(groups).

(** [Group]: the callback registers under the pushed group; the last
    group is taken off afterwards, and slicing an empty stack panics. *)
Definition Group (r : router) (pat : string) (fn : router -> result router)
           (h : list Handler) : result router :=
  r1 <- fn (mkRouter r.(routes) r.(notFounds) (r.(groups) ++ [mkGroup pat h])%list) ;;
  match r1.(groups) with
  | [] => Panic "slice bounds out of range"
  | _ :: _ => Done (mkRouter r1.(routes) r1.(notFounds) (removelast r1.(groups)))
  end.

(* ------------------------------------------------------------------ *)
(** * The response tracker *)

(** Modelled from the spec: the response tracker ([ResponseWriter] and
    [NewResponseWriter] are not among the sources).  It wraps the response
    sink and records whether any bytes or status have been written; the
    status is 200 unless a handler sets it. *)
Record ResponseWriter : Type := mkResponseWriter {
  rw_written : bool;
  rw_status : Z;
  rw_body : string
}.

Definition NewResponseWriter : ResponseWriter :=
  mkResponseWriter false 200 EmptyString.

Definition rw_WriteHeader (status : Z) (w : ResponseWriter) : ResponseWriter :=
  mkResponseWriter true (if w.(rw_written) then w.(rw_status) else status) w.(rw_body).

Definition rw_Write (b : string) (w : ResponseWriter) : ResponseWriter :=
  mkResponseWriter true w.(rw_status) (w.(rw_body) ++ b).

(* ------------------------------------------------------------------ *)
(** * Execution contexts (context.go, yawf.go) *)

Inductive scope : Type := Top | InRoute.

(** What happened during a request, oldest first.  The history is not in
    the source; it is kept to state which handler ran when. *)
Inductive event : Type :=
| Invoked (sc : scope) (i : Z)
| CalledStop
| Wrote (body : string)
| WroteHeader (status : Z).

Record Request : Type := mkRequest {
  Method : string;
  Path : string
}.

(** What a top-level context invokes: a handler of its chain, or its
    action, which is a handler or the [Handle] method of a router (the
    action [New] installs).  The handlers of the chain are handed the
    top-level context as their [Context]. *)
Inductive Callable : Type :=
| Plain (h : Handler)
| RouterHandle (r : router).

(** [type context struct]; [c_request] and [c_params] stand for the values
    mapped into its injector. *)
Record context : Type := mkContext {
  c_handlers : list Handler;
  c_action : Callable;
  c_rw : ResponseWriter;
  c_index : Z;
  c_request : Request;
  c_params : option PathParams;
  c_trace : list event
}.

Definition set_index (i : Z) (c : context) : context :=
  mkContext c.(c_handlers) c.(c_action) c.(c_rw) i c.(c_request) c.(c_params) c.(c_trace).

Definition set_rw (w : ResponseWriter) (c : context) : context :=
  mkContext c.(c_handlers) c.(c_action) w c.(c_index) c.(c_request) c.(c_params) c.(c_trace).

Definition set_params (p : option PathParams) (c : context) : context :=
  mkContext c.(c_handlers) c.(c_action) c.(c_rw) c.(c_index) c.(c_request) p c.(c_trace).

Definition record (e : event) (c : context) : context :=
  mkContext c.(c_handlers) c.(c_action) c.(c_rw) c.(c_index) c.(c_request) c.(c_params)
            (c.(c_trace) ++ [e])%list.

Definition len_handlers (c : context) : Z := Z.of_nat (List.length c.(c_handlers)).

Definition NewContext (hs : list Handler) (action : Callable) (req : Request) : context :=
  mkContext hs action NewResponseWriter (-1) req None [].

Definition Written (c : context) : bool := c.(c_rw).(rw_written).

Definition Stop (c : context) : context :=
  record CalledStop (set_index (len_handlers c + 1) c).

Definition IsStopped (c : context) : bool :=
  negb (c.(c_index) <=? len_handlers c)%Z.

(** [c.handlers[c.index]]; a negative index is out of range. *)
Definition at_index {A : Type} (l : list A) (i : Z) : option A :=
  if (i <? 0)%Z then None else nth_error l (Z.to_nat i).

Definition handler (c : context) : result Callable :=
  if (c.(c_index) <? len_handlers c)%Z then
    match at_index c.(c_handlers) c.(c_index) with
    | Some h => Done (Plain h)
    | None => Panic "index out of range"
    end
  else if (c.(c_index) =? len_handlers c)%Z then Done c.(c_action)
  else Panic "invalid index for context handler".

(** [type routeContext struct { Context; index int; handlers []Handler }].
    The embedded [Context] is the top-level context of the request, shared
    with it; [Stop], [IsStopped] and [Written] are its methods. *)
Record routeContext : Type := mkRouteContext {
  Context : context;
  r_index : Z;
  r_handlers : list Handler
}.

(** A value usable as a [Context]: it is, or embeds, the request's
    top-level context. *)
Class Embeds (S : Type) : Type := {
  embedded : S -> context;
  with_embedded : context -> S -> S
}.

#[export] Instance context_Embeds : Embeds context := {
  embedded := fun c => c;
  with_embedded := fun c _ => c
}.

#[export] Instance routeContext_Embeds : Embeds routeContext := {
  embedded := Context;
  with_embedded := fun c r => mkRouteContext c r.(r_index) r.(r_handlers)
}.

Section ContextInterface.
Context {S : Type} `{Embeds S}.

Definition ctx_Stop (s : S) : S := with_embedded (Stop (embedded s)) s.
Definition ctx_IsStopped (s : S) : bool := IsStopped (embedded s).
Definition ctx_Written (s : S) : bool := Written (embedded s).

(** [res.Write] and [res.WriteHeader] on the response writer of the
    request. *)
Definition res_Write (b : string) (s : S) : S :=
  let c := embedded s in
  with_embedded (record (Wrote b) (set_rw (rw_Write b c.(c_rw)) c)) s.

Definition res_WriteHeader (status : Z) (s : S) : S :=
  let c := embedded s in
  with_embedded (record (WroteHeader status) (set_rw (rw_WriteHeader status c.(c_rw)) c)) s.

Definition ctx_record (e : event) (s : S) : S :=
  with_embedded (record e (embedded s)) s.

(** Running the body of a handler; [next] is the [Next] of the context
    the handler was given. *)
Fixpoint call (next : S -> result S) (p : script) (s : S) : result (list Value * S) :=
  match p with
  | Return vals => Done (vals, s)
  | Abort msg => Panic msg
  | CallNext k => s' <- next s ;; call next k s'
  | CallStop k => call next k (ctx_Stop s)
  | GetStopped k => call next (k (ctx_IsStopped s)) s
  | GetWritten k => call next (k (ctx_Written s)) s
  | Write b k => call next k (res_Write b s)
  | WriteHeader st k => call next k (res_WriteHeader st s)
  end.

(** [Invoke] of the injector. *)
Definition Invoke (next : S -> result S) (h : Handler) (s : S) : result (list Value * S) :=
  match h with
  | NotFunc => Panic "reflect: call of non-function"
  | Func body => call next body s
  end.
End ContextInterface.

(* ------------------------------------------------------------------ *)
(** * Return handlers (return_handler.go) *)

Definition isString (v : Value) : bool := Kind_eqb (kind_of v) KString.

Definition isByteSlice (v : Value) : bool := Kind_eqb (kind_of v) KByteSlice.

Definition canDeref (v : Value) : bool :=
  Kind_eqb (kind_of v) KInterface || Kind_eqb (kind_of v) KPtr.

Section ReturnHandlers.
(** [json.Marshal], a collaborator: the encoding of a value, or an error. *)
Variable marshal : Value -> option string.

Context {S : Type} `{Embeds S}.

(** The first test of both handlers. *)
Definition passes (vals : list Value) : bool :=
  (List.length vals =? 0)%nat
  || ((1 <=? List.length vals)%nat
      && Kind_eqb (kind_of (nth 0 vals VInvalid)) KBool
      && as_bool (nth 0 vals VInvalid)).

(** The second test of both handlers. *)
Definition refuses (vals : list Value) : bool :=
  (List.length vals =? 1)%nat
  && Kind_eqb (kind_of (nth 0 vals VInvalid)) KBool
  && negb (as_bool (nth 0 vals VInvalid)).

(** Status and body taken from the values: the new context and
    [responseVal] before it is dereferenced. *)
Definition status_and_body (ctx : S) (vals : list Value) : S * Value :=
  if (1 <? List.length vals)%nat then
    let status :=
      if Kind_eqb (kind_of (nth 0 vals VInvalid)) KInt
      then as_int (nth 0 vals VInvalid) else 200%Z in
    (res_WriteHeader status ctx, nth 1 vals VInvalid)
  else if (0 <? List.length vals)%nat then (ctx, nth 0 vals VInvalid)
  else (ctx, VString EmptyString).

Definition deref (v : Value) : Value := if canDeref v then Elem v else v.

(** The last [if] chain of both handlers. *)
Definition write_value (v : Value) (ctx : S) : result S :=
  if isByteSlice v then Done (res_Write (as_bytes v) ctx)
  else if isString v then Done (res_Write (as_string v) ctx)
  else
    match v with
    | VInvalid => Panic "reflect: call of reflect.Value.Interface on zero Value"
    | _ =>
        match marshal v with
        | Some bytes => Done (res_Write bytes ctx)
        | None => Panic "json: unsupported value"
        end
    end.

Definition defaultRouterReturnHandler (ctx : S) (vals : list Value) : result S :=
  if passes vals then Done ctx
  else if refuses vals then Done (ctx_Stop (res_Write EmptyString ctx))
  else
    let '(ctx1, responseVal) := status_and_body ctx vals in
    write_value (deref responseVal) ctx1.

Definition defaultMiddlewareReturnHandler (ctx : S) (vals : list Value) : result S :=
  if passes vals then Done ctx
  else if refuses vals then Done (ctx_Stop (res_Write EmptyString ctx))
  else
    let '(ctx1, responseVal) := status_and_body ctx vals in
    write_value (deref responseVal) (ctx_Stop ctx1).
End ReturnHandlers.

(* ------------------------------------------------------------------ *)
(** * Running the chains *)

Section Run.
Variable marshal : Value -> option string.

Definition r_set_index (i : Z) (r : routeContext) : routeContext :=
  mkRouteContext r.(Context) i r.(r_handlers).

(** [routeContext.run]; [routeContext.Next] is the [next] handed to the
    handler. *)
Fixpoint routeContext_run (fuel : nat) (r : routeContext) : result routeContext :=
  match fuel with
  | O => OutOfFuel
  | S fuel' =>
      if (r.(r_index) <? Z.of_nat (List.length r.(r_handlers)))%Z then
        match at_index r.(r_handlers) r.(r_index) with
        | None => Panic "index out of range"
        | Some h =>
            '(vals, r1) <-
              Invoke (fun r' => routeContext_run fuel' (r_set_index (r'.(r_index) + 1) r'))
                     h (ctx_record (Invoked InRoute r.(r_index)) r) ;;
            let r2 := r_set_index (r1.(r_index) + 1) r1 in
            if (0 <? List.length vals)%nat then
              defaultRouterReturnHandler marshal r2 vals
            else if ctx_Written r2 then Done r2
            else routeContext_run fuel' r2
        end
      else Done r
  end.

Definition routeContext_Next (fuel : nat) (r : routeContext) : result routeContext :=
  routeContext_run fuel (r_set_index (r.(r_index) + 1) r).

(** [route.Handle] *)
Definition route_Handle (fuel : nat) (rt : route) (c : context) : result context :=
  r <- routeContext_run fuel (mkRouteContext c 0 rt.(handlers)) ;;
  Done r.(Context).

(** [router.Handle] *)
Definition Handle (fuel : nat) (r : router) (c : context) : result context :=
  let b := scan r.(routes) c.(c_request).(Method) c.(c_request).(Path)
                (mkBest NoMatch None None 0) in
  if negb (RouteMatch_eqb b.(bestMatch) NoMatch) then
    match b.(bestRoute) with
    | Some rt => route_Handle fuel rt (set_params b.(bestVals) c)
    | None => Panic "invalid memory address or nil pointer dereference"
    end
  else
    rc <- routeContext_run fuel (mkRouteContext c 0 r.(notFounds)) ;;
    Done rc.(Context).

(** [context.run]; [context.Next] is the [next] handed to the handler. *)
Fixpoint run (fuel : nat) (c : context) : result context :=
  match fuel with
  | O => OutOfFuel
  | S fuel' =>
      if IsStopped c then Done c
      else
        h <- handler c ;;
        '(vals, c1) <-
          (let c0 := record (Invoked Top c.(c_index)) c in
           match h with
           | Plain f => Invoke (fun c' => run fuel' (set_index (c'.(c_index) + 1) c')) f c0
           | RouterHandle r => c' <- Handle fuel' r c0 ;; Done ([], c')
           end) ;;
        c2 <- defaultMiddlewareReturnHandler marshal c1 vals ;;
        let c3 := set_index (c2.(c_index) + 1) c2 in
        if Written c3 then Done c3
        else if IsStopped c3 then Done c3
        else run fuel' c3
  end.

Definition Next (fuel : nat) (c : context) : result context :=
  run fuel (set_index (c.(c_index) + 1) c).

(* ---------------------------------------------------------------- *)
(** * The server (yawf.go) *)

(** [type yawf struct]; [listener] tells whether a listener is set and
    open, [cClose] is the buffer of the channel (capacity 1), [slept]
    lists the delays the server has slept (it is not in the source). *)
Record yawf : Type := mkYawf {
  y_handlers : list Handler;
  y_action : Callable;
  listener : option bool;
  activeCount : Z;
  cClose : list bool;
  isStopping : bool;
  gracefulDelay : Z;
  slept : list Z
}.

(** [int32] arithmetic wraps around. *)
Definition wrap32 (z : Z) : Z := ((z + 2 ^ 31) mod 2 ^ 32 - 2 ^ 31)%Z.

Definition second : Z := 1000000000.

(** The server part of [New]; its action is the [Handle] of the router. *)
Definition New_yawf (r : router) : yawf :=
  mkYawf [] (RouterHandle r) None 0 [] false (3 * second) [].

Definition Use (s : yawf) (h : Handler) : result yawf :=
  _ <- ValidateHandler h ;;
  Done (mkYawf (s.(y_handlers) ++ [h])%list s.(y_action) s.(listener)
               s.(activeCount) s.(cClose) s.(isStopping) s.(gracefulDelay) s.(slept)).

(** [SetListener], with a listener that is open. *)
Definition SetListener (s : yawf) : yawf :=
  mkYawf s.(y_handlers) s.(y_action) (Some true) s.(activeCount) s.(cClose)
         s.(isStopping) s.(gracefulDelay) s.(slept).

Definition SetGracefulDelay (s : yawf) (delay : Z) : yawf :=
  mkYawf s.(y_handlers) s.(y_action) s.(listener) s.(activeCount) s.(cClose)
         s.(isStopping) delay s.(slept).

(** [s.cClose <- true]; a send on a full buffer blocks. *)
Definition send_close (s : yawf) : result yawf :=
  if (List.length s.(cClose) <? 1)%nat then
    Done (mkYawf s.(y_handlers) s.(y_action) s.(listener) s.(activeCount)
                 (s.(cClose) ++ [true])%list s.(isStopping) s.(gracefulDelay) s.(slept))
  else Blocked.

Definition yawf_Stop (s : yawf) : result yawf :=
  match s.(listener) with
  | None => Panic "invalid memory address or nil pointer dereference"
  | Some _ =>
      let s1 := mkYawf s.(y_handlers) s.(y_action) (Some false) s.(activeCount)
                       s.(cClose) true s.(gracefulDelay) s.(slept) in
      if (s1.(activeCount) =? 0)%Z then send_close s1 else Done s1
  end.

Definition CreateContext (s : yawf) (req : Request) : context :=
  NewContext s.(y_handlers) s.(y_action) req.

(** The first statement of [ServeHTTP]: the chain of the request. *)
Definition ServeHTTP_dispatch (fuel : nat) (s : yawf) (req : Request) : result context :=
  Next fuel (CreateContext s req).

(** The rest of [ServeHTTP]. *)
Definition ServeHTTP_finish (s : yawf) : result yawf :=
  let count := wrap32 (s.(activeCount) + -1) in
  let s1 := mkYawf s.(y_handlers) s.(y_action) s.(listener) count s.(cClose)
                   s.(isStopping) s.(gracefulDelay) s.(slept) in
  if s1.(isStopping) && (count =? 0)%Z then
    send_close (mkYawf s1.(y_handlers) s1.(y_action) s1.(listener) s1.(activeCount)
                       s1.(cClose) s1.(isStopping) s1.(gracefulDelay)
                       (s1.(slept) ++ [s1.(gracefulDelay)])%list)
  else Done s1.

Definition ServeHTTP (fuel : nat) (s : yawf) (req : Request) : result (yawf * context) :=
  c <- ServeHTTP_dispatch fuel s req ;;
  s' <- ServeHTTP_finish s ;;
  Done (s', c).
End Run.

(* ------------------------------------------------------------------ *)
(** * URL rendering, in the words of the design document

    A pattern read as literal text and parameter tokens [:name]; rendering
    puts the arguments in the place of the tokens, from left to right, and
    leaves a token as it is once the arguments have run out. *)














(* ------------------------------------------------------------------ *)
(** * Reading a history *)

Definition is_stop (e : event) : bool :=
  match e with CalledStop => true | _ => false end.

Definition is_top_invoke (e : event) : bool :=
  match e with Invoked Top _ => true | _ => false end.

(** No handler of the top-level chain is invoked once [Stop] has been
    called; [stopped] tells whether it had been called before [tr]. *)
Fixpoint quiet (stopped : bool) (tr : list event) : bool :=
  match tr with
  | [] => true
  | e :: tr' =>
      negb (stopped && is_top_invoke e) && quiet (stopped || is_stop e) tr'
  end.

(** A context whose history is quiet after [Stop], and which is stopped
    if [Stop] was ever called on it. *)
Definition settled (c : context) : Prop :=
  quiet false c.(c_trace) = true
  /\ (existsb is_stop c.(c_trace) = true -> IsStopped c = true).

(** The law of [Embeds]: what is put in is what is found. *)
Class EmbedsLaw (S : Type) {E : Embeds S} : Prop :=
  embedded_with_embedded : forall (c : context) (s : S), embedded (with_embedded c s) = c.

Arguments EmbedsLaw S {E}.

(** A [json.Marshal] that knows no value. *)
Definition no_json (v : Value) : option string := None.

(** What a write leaves as it is: the calls of [Stop] in the history and
    the cursor of the top-level context. *)
Definition same_stops (c c' : context) : Prop :=
  filter is_stop c'.(c_trace) = filter is_stop c.(c_trace)
  /\ c'.(c_index) = c.(c_index).

(* ------------------------------------------------------------------ *)
(** * How far a request can go *)

(** The result of code that came to an end: it returned or it panicked. *)
Definition ended {A : Type} (m : result A) : Prop :=
  match m with
  | Done _ | Panic _ => True
  | Blocked | OutOfFuel => False
  end.

(** The longest chain a router can run. *)
Definition longest_chain (r : router) : nat :=
  fold_right (fun rt n => Nat.max (List.length rt.(handlers)) n)
             (List.length r.(notFounds)) r.(routes).

Definition action_depth (a : Callable) : nat :=
  match a with
  | Plain _ => 0
  | RouterHandle r => longest_chain r
  end.

(** The turns a top-level context has left: its handlers from the cursor
    on, and its action. *)
Definition turns_left (c : context) : nat :=
  Z.to_nat (len_handlers c + 1 - c.(c_index)).

(** A context of the same chain with no more than [j] turns left. *)
Definition within (hs : list Handler) (a : Callable) (j : nat) (c : context) : Prop :=
  c.(c_handlers) = hs /\ c.(c_action) = a /\ turns_left c <= j.

(** A route-scoped context of the same chain, not behind the place [k]. *)
Definition r_within (rhs : list Handler) (k : Z) (hs : list Handler) (a : Callable)
           (j : nat) (r : routeContext) : Prop :=
  r.(r_handlers) = rhs /\ (k <= r.(r_index))%Z /\ within hs a j r.(Context).

(* ------------------------------------------------------------------ *)
(** * More of the history *)

(** The places of the top-level chain whose handler was invoked, in the
    order of the invocations. *)
Fixpoint tops (tr : list event) : list Z :=
  match tr with
  | [] => []
  | Invoked Top i :: tr' => i :: tops tr'
  | _ :: tr' => tops tr'
  end.

(** The places of the route chain whose handler was invoked. *)
Fixpoint route_places (tr : list event) : list Z :=
  match tr with
  | [] => []
  | Invoked InRoute i :: tr' => i :: route_places tr'
  | _ :: tr' => route_places tr'
  end.

(** The invocations so far are in increasing order of place, at places of
    the chain, none behind the cursor. *)
Definition in_order (c : context) : Prop :=
  StronglySorted Z.lt (tops c.(c_trace))
  /\ (-1 <= c.(c_index))%Z
  /\ forall i, In i (tops c.(c_trace)) ->
               (0 <= i <= len_handlers c)%Z /\ (i <= c.(c_index))%Z.

(** The same with every invocation in front of the cursor. *)
Definition in_order_before (c : context) : Prop :=
  StronglySorted Z.lt (tops c.(c_trace))
  /\ (0 <= c.(c_index))%Z
  /\ forall i, In i (tops c.(c_trace)) ->
               (0 <= i <= len_handlers c)%Z /\ (i < c.(c_index))%Z.

(** A handler that only looks: it asks whether the context is stopped or
    the response written, and returns nothing or [true]. *)
Inductive passive : script -> Prop :=
| passive_Return vals : passes vals = true -> passive (Return vals)
| passive_GetStopped k : (forall b, passive (k b)) -> passive (GetStopped k)
| passive_GetWritten k : (forall b, passive (k b)) -> passive (GetWritten k).

Definition passive_handler (h : Handler) : Prop :=
  match h with
  | Func body => passive body
  | NotFunc => False
  end.

(** The history of a chain whose first [n] handlers have run. *)
Definition ran (n : nat) : list event :=
  map (fun i => Invoked Top (Z.of_nat i)) (seq 0 n).

(** The test of [MethodsFor] on a route. *)
Definition path_matches (rt : route) (path : string) : bool :=
  let matches := Regexp.FindStringSubmatch rt.(regex) path in
  (0 <? List.length matches)%nat && String.eqb (nth 0 matches EmptyString) path.

Definition is_func (h : Handler) : bool :=
  match h with Func _ => true | NotFunc => false end.

(** The prefix and the handlers the active groups give a route. *)
Definition group_prefix (gs : list group) : string :=
  fold_left (fun acc g => acc ++ g.(g_pattern)) gs EmptyString.

Definition group_handlers (gs : list group) : list Handler :=
  fold_left (fun acc g => (acc ++ g.(g_handlers))%list) gs [].

(** The calls on the response writer in a history. *)
Definition is_write (e : event) : bool :=
  match e with
  | Wrote _ | WroteHeader _ => true
  | _ => false
  end.

Definition writes (tr : list event) : list event := filter is_write tr.

(** How the results of the two protocols on one request compare: the same
    calls on the response writer, or the same panic. *)
Definition alike (x : result routeContext) (y : result context) : Prop :=
  match x, y with
  | Done a, Done b => writes a.(Context).(c_trace) = writes b.(c_trace)
  | Panic m, Panic m' => m = m'
  | _, _ => False
  end.

(** The status the protocols ask for when there are two values or more. *)
Definition status_of (v : Value) : Z :=
  match v with
  | VInt n => n
  | _ => 200%Z
  end.

(** The body of the answer [http.NotFound] writes. *)
Definition not_found_body : string :=
  "404 page not found" ++ String Regexp.newline EmptyString.

(* ================================================================== *)
(** * Properties *)

Unset Implicit Arguments.

(** ** Strings *)

Lemma append_nil_r (s : string) : s ++ EmptyString = s.
Proof. induction s as [|a s IH]; simpl; [reflexivity | now rewrite IH]. Qed.

Lemma append_assoc (a b c : string) : (a ++ b) ++ c = a ++ (b ++ c).
Proof. induction a as [|x a IH]; simpl; [reflexivity | now rewrite IH]. Qed.

Lemma length_append (a b : string) :
  String.length (a ++ b) = String.length a + String.length b.
Proof. induction a as [|x a IH]; simpl; [reflexivity | now rewrite IH]. Qed.

Lemma substring_prefix (w rest : string) :
  substring 0 (String.length w) (w ++ rest) = w.
Proof.
  induction w as [|x w IH]; simpl.
  - destruct rest; reflexivity.
  - now rewrite IH.
Qed.

Lemma taken_append (w rest : string) : Str.taken (w ++ rest) rest = w.
Proof.
  unfold Str.taken. rewrite length_append.
  replace (String.length w + String.length rest - String.length rest)
    with (String.length w) by lia.
  apply substring_prefix.
Qed.

Lemma append_same_length (w rest : string) :
  String.length (w ++ rest) = String.length w -> rest = EmptyString.
Proof.
  rewrite length_append. intros E.
  destruct rest; [reflexivity | simpl in E; lia].
Qed.

(** ** The matcher finds only what the expression denotes *)

Module RegexpFacts.
Import Regexp.

Section Sound.
Variable T : Type.

Lemma one_char_sound (p : ascii -> bool) s cs (k : cont T) x :
  one_char p s cs k = Some x ->
  exists a s', s = String a s' /\ p a = true /\ k s' cs = Some x.
Proof.
  destruct s as [|a s']; simpl; [discriminate|].
  destruct (p a) eqn:E; [|discriminate].
  intros Hk. now exists a, s'.
Qed.

Lemma star_loop_sound (r : regex) :
  (forall s cs (k : cont T) x, exec r s cs k = Some x -> reads r s k x) ->
  forall n s cs (k : cont T) x,
    star_loop (exec (T:=T) r) n s cs k = Some x -> reads (Star r) s k x.
Proof.
  intros IHr. induction n as [|n IHn]; intros s cs k x; simpl.
  - intros Hk. exists EmptyString, s, cs. repeat split; [constructor | exact Hk].
  - match goal with |- context [exec r s cs ?k'] => destruct (exec r s cs k') eqn:E end.
    + intros [= ->].
      apply IHr in E. destruct E as (w1 & s1 & cs1 & -> & L1 & K1).
      destruct (String.length s1 <? String.length (w1 ++ s1))%nat; [|discriminate].
      apply IHn in K1. destruct K1 as (w2 & s2 & cs2 & -> & L2 & K2).
      exists (w1 ++ w2), s2, cs2. repeat split; [now rewrite append_assoc | | exact K2].
      now constructor.
    + intros Hk. exists EmptyString, s, cs. repeat split; [constructor | exact Hk].
Qed.

Lemma exec_sound (r : regex) :
  forall s cs (k : cont T) x, exec r s cs k = Some x -> reads r s k x.
Proof.
  induction r as [ | c | | neg ranges | r1 IH1 r2 IH2 | r1 IH1 r2 IH2
                   | r1 IH1 | r1 IH1 | r1 IH1 | i r1 IH1 ];
    intros s cs k x; simpl; intros E.
  - exists EmptyString, s, cs. repeat split; [constructor | exact E].
  - apply one_char_sound in E. destruct E as (a & s' & -> & Ha & Hk).
    apply Ascii.eqb_eq in Ha. subst a.
    exists (String c EmptyString), s', cs. repeat split; [constructor | exact Hk].
  - apply one_char_sound in E. destruct E as (a & s' & -> & Ha & Hk).
    exists (String a EmptyString), s', cs. repeat split; [| exact Hk].
    constructor. intros ->. now rewrite Ascii.eqb_refl in Ha.
  - apply one_char_sound in E. destruct E as (a & s' & -> & Ha & Hk).
    exists (String a EmptyString), s', cs. repeat split; [| exact Hk].
    now constructor.
  - apply IH1 in E. destruct E as (w1 & s1 & cs1 & -> & L1 & K1).
    apply IH2 in K1. destruct K1 as (w2 & s2 & cs2 & -> & L2 & K2).
    exists (w1 ++ w2), s2, cs2. repeat split; [now rewrite append_assoc | | exact K2].
    now constructor.
  - destruct (exec r1 s cs k) eqn:E1.
    + injection E as ->. apply IH1 in E1.
      destruct E1 as (w & s' & cs' & -> & L & K).
      exists w, s', cs'. repeat split; [| exact K]. now apply L_alt_l.
    + apply IH2 in E. destruct E as (w & s' & cs' & -> & L & K).
      exists w, s', cs'. repeat split; [| exact K]. now apply L_alt_r.
  - eapply star_loop_sound; eauto.
  - apply IH1 in E. destruct E as (w1 & s1 & cs1 & -> & L1 & K1).
    apply (star_loop_sound r1 IH1) in K1.
    destruct K1 as (w2 & s2 & cs2 & -> & L2 & K2).
    exists (w1 ++ w2), s2, cs2. repeat split; [now rewrite append_assoc | | exact K2].
    now constructor.
  - destruct (exec r1 s cs k) eqn:E1.
    + injection E as ->. apply IH1 in E1.
      destruct E1 as (w & s' & cs' & -> & L & K).
      exists w, s', cs'. repeat split; [| exact K]. now apply L_opt_some.
    + exists EmptyString, s, cs. repeat split; [constructor | exact E].
  - apply IH1 in E. destruct E as (w & s' & cs' & -> & L & K).
    eexists w, s', _. repeat split; [| exact K]. now constructor.
Qed.
End Sound.

Lemma match_here_sound r s rest cs :
  match_here r s = Some (rest, cs) -> exists w, s = w ++ rest /\ lang r w.
Proof.
  unfold match_here. intros E. apply exec_sound in E.
  destruct E as (w & s' & cs' & -> & L & [= -> ->]). now exists w.
Qed.

Lemma match_here_taken r s rest cs :
  match_here r s = Some (rest, cs) ->
  s = Str.taken s rest ++ rest /\ lang r (Str.taken s rest).
Proof.
  intros E. apply match_here_sound in E. destruct E as (w & -> & L).
  rewrite taken_append. now split.
Qed.

Lemma find_sound r : forall s pre mt rest cs,
  find r s = Some (pre, mt, rest, cs) -> s = pre ++ mt ++ rest /\ lang r mt.
Proof.
  induction s as [|a s IH]; intros pre mt rest cs; simpl.
  - destruct (match_here r EmptyString) as [[rest' cs']|] eqn:E; [|discriminate].
    intros [= <- <- <- <-]. now apply match_here_taken in E.
  - destruct (match_here r (String a s)) as [[rest' cs']|] eqn:E.
    + intros [= <- <- <- <-]. now apply match_here_taken in E.
    + destruct (find r s) as [[[[pre' mt'] rest'] cs']|] eqn:F; [|discriminate].
      intros [= <- <- <- <-]. destruct (IH _ _ _ _ eq_refl) as [-> L].
      now split.
Qed.

(** [FindStringSubmatch] answers the whole of [s] only if the expression
    denotes [s]. *)
Lemma FindStringSubmatch_whole re s :
  (0 <? List.length (FindStringSubmatch re s))%nat
  && String.eqb (nth 0 (FindStringSubmatch re s) EmptyString) s = true ->
  lang (re_tree re) s.
Proof.
  unfold FindStringSubmatch.
  destruct (find (re_tree re) s) as [[[[pre mt] rest] cs]|] eqn:F; simpl; [|discriminate].
  intros E. apply String.eqb_eq in E. subst mt.
  apply find_sound in F. now destruct F as [_ L].
Qed.
End RegexpFacts.

(** ** Routes *)

Lemma newRoute_fields meth pat hs r :
  newRoute meth pat hs = Done r ->
  r.(method) = meth /\ r.(pattern) = pat /\ r.(handlers) = hs /\ r.(name) = EmptyString
  /\ exists src, Regexp.compile (src ++ "\/?") = Some r.(regex).
Proof.
  unfold newRoute.
  destruct (Regexp.ReplaceAllStringFunc _ _ pat tt) as [u p1].
  destruct (Regexp.ReplaceAllStringFunc _ _ p1 0) as [n p2].
  destruct (Regexp.compile (p2 ++ "\/?")) as [re|] eqn:E; [|discriminate].
  intros [= <-]. simpl. repeat split. now exists p2.
Qed.

Lemma Match_ranked_whole r reqMethod path :
  fst (Match r reqMethod path) <> NoMatch ->
  fst (Match r reqMethod path) = MatchMethod r reqMethod
  /\ Regexp.lang (Regexp.re_tree r.(regex)) path.
Proof.
  unfold Match.
  destruct (RouteMatch_eqb (MatchMethod r reqMethod) NoMatch) eqn:Em; simpl.
  - destruct (MatchMethod r reqMethod); try discriminate. intros H; now elim H.
  - match goal with |- context [if ?b then _ else _] => destruct b eqn:E end; simpl.
    + intros _. split; [reflexivity|]. now apply RegexpFacts.FindStringSubmatch_whole.
    + intros H; now elim H.
Qed.

(** C8. [Match] answers a rank other than [NoMatch] only for a path that
    the compiled expression of the route denotes as a whole (the entire
    path, not a prefix or a part of it); that expression is compiled from
    the rewritten pattern followed by an optional slash. *)
Theorem Match_only_on_whole_path meth pat hs r reqMethod path :
  newRoute meth pat hs = Done r ->
  fst (Match r reqMethod path) <> NoMatch ->
  (exists src, Regexp.compile (src ++ "\/?") = Some r.(regex))
  /\ Regexp.lang (Regexp.re_tree r.(regex)) path.
Proof.
  intros Hnew Hm. split.
  - apply newRoute_fields in Hnew. tauto.
  - now apply Match_ranked_whole in Hm.
Qed.

Lemma Match_only_on_whole_path_witness :
  exists r,
    newRoute "GET" "/users/:id" [] = Done r
    /\ fst (Match r "HEAD" "/users/42/") <> NoMatch
    /\ Regexp.lang (Regexp.re_tree r.(regex)) "/users/42/".
Proof.
  eexists. split; [vm_compute; reflexivity|].
  split; [vm_compute; discriminate|].
  eapply (Match_only_on_whole_path "GET" "/users/:id" [] _ "HEAD" "/users/42/").
  - vm_compute; reflexivity.
  - vm_compute; discriminate.
Defined.

(** The path has to be matched from its first to its last character, a
    slash at the end apart. *)
Example Match_whole_path_examples :
  exists r,
    newRoute "GET" "/users/:id" [] = Done r
    /\ Match r "GET" "/users/42" = (ExactMatch, Some [("id", "42")])
    /\ Match r "GET" "/users/42/" = (ExactMatch, Some [("id", "42")])
    /\ Match r "GET" "/users/42//" = (NoMatch, None)
    /\ Match r "GET" "/users/42/posts" = (NoMatch, None)
    /\ Match r "GET" "/v1/users/42" = (NoMatch, None)
    /\ Match r "POST" "/users/42" = (NoMatch, None).
Proof. eexists. split; [vm_compute; reflexivity|]. repeat split. Qed.

(** C10. Characters of a pattern that mean something to the regular
    expression syntax keep that meaning: the dot of ["/file.txt"] stands
    for any character (but a line feed), so the route matches a path that
    has another character in that place, as well as the path with the dot. *)
Theorem pattern_dot_matches_any_char (c : ascii) :
  c <> Regexp.newline ->
  exists r,
    newRoute "GET" "/file.txt" [] = Done r
    /\ Match r "GET" ("/file" ++ String c "txt") = (ExactMatch, Some [])
    /\ Match r "GET" "/file.txt" = (ExactMatch, Some []).
Proof.
  intros Hc. eexists. split; [vm_compute; reflexivity|]. split; [|reflexivity].
  assert (Hn : Ascii.eqb c Regexp.newline = false) by now apply Ascii.eqb_neq.
  unfold Match, MatchMethod, Regexp.FindStringSubmatch, Regexp.SubexpNames. simpl.
  unfold Regexp.match_here. simpl. rewrite Hn. simpl.
  unfold Str.taken. simpl. now rewrite Ascii.eqb_refl.
Qed.

Lemma pattern_dot_matches_any_char_witness :
  "X"%char <> Regexp.newline
  /\ exists r,
      newRoute "GET" "/file.txt" [] = Done r
      /\ Match r "GET" "/fileXtxt" = (ExactMatch, Some [])
      /\ Match r "GET" "/file.txt" = (ExactMatch, Some []).
Proof.
  split; [discriminate|].
  apply (pattern_dot_matches_any_char "X"%char). discriminate.
Defined.

(** ** Rendering URLs *)

Module UrlFacts.
Import Regexp.



Local Arguments in_class : simpl never.
Local Arguments star_loop : simpl never.










Section Replace.
Variable args : list string.


End Replace.

End UrlFacts.



(** ** Dispatch *)

Lemma BetterThan_gt a b :
  BetterThan a b = true <-> (RouteMatch_int a > RouteMatch_int b)%Z.
Proof. unfold BetterThan. rewrite Z.gtb_gt. lia. Qed.

Lemma BetterThan_le a b :
  BetterThan a b = false <-> (RouteMatch_int a <= RouteMatch_int b)%Z.
Proof.
  unfold BetterThan. destruct (Z.gtb_spec (RouteMatch_int a) (RouteMatch_int b));
    split; intros; try lia; try discriminate; reflexivity.
Qed.

Lemma RouteMatch_int_inj a b : RouteMatch_int a = RouteMatch_int b -> a = b.
Proof. destruct a, b; simpl; intros; try reflexivity; discriminate. Qed.

Lemma RouteMatch_eqb_eq a b : RouteMatch_eqb a b = true <-> a = b.
Proof.
  unfold RouteMatch_eqb. rewrite Z.eqb_eq. split.
  - apply RouteMatch_int_inj.
  - now intros ->.
Qed.

Lemma RouteMatch_int_range a : (0 <= RouteMatch_int a <= 3)%Z.
Proof. destruct a; simpl; lia. Qed.

Section Scan.
Variables meth path : string.

Let rank (rt : route) : RouteMatch := fst (Match rt meth path).

(** What the loop of [Handle] has computed once it ends, whatever it
    started from. *)
Lemma scan_from : forall rts b,
  let b' := scan rts meth path b in
  (bestMatch b' = bestMatch b /\ bestVals b' = bestVals b
   /\ bestRoute b' = bestRoute b
   /\ (forall rt, In rt rts -> BetterThan (rank rt) (bestMatch b) = false)
   /\ examined b' = examined b + List.length rts)
  \/ (exists l1 rt l2,
         rts = (l1 ++ rt :: l2)%list
         /\ bestRoute b' = Some rt
         /\ bestMatch b' = rank rt
         /\ bestVals b' = snd (Match rt meth path)
         /\ BetterThan (rank rt) (bestMatch b) = true
         /\ (forall rt', In rt' l1 -> BetterThan (rank rt) (rank rt') = true)
         /\ (forall rt', In rt' l2 -> BetterThan (rank rt') (rank rt) = false)
         /\ examined b' =
            examined b + (if RouteMatch_eqb (rank rt) ExactMatch
                          then S (List.length l1) else List.length rts)).
Proof.
  induction rts as [|r0 rts IH]; intros b; cbn zeta.
  - left. simpl. repeat split; [intros rt []| lia].
  - cbn [scan]. destruct (Match r0 meth path) as [m vals] eqn:EM.
    assert (Hr0 : rank r0 = m) by (unfold rank; now rewrite EM).
    destruct (BetterThan m (bestMatch b)) eqn:EB.
    + destruct (RouteMatch_eqb m ExactMatch) eqn:EX.
      * right. exists [], r0, rts. cbn [bestRoute bestMatch bestVals examined app].
        rewrite Hr0, EM, EX. cbn [List.length snd].
        repeat split; try assumption; try lia.
        -- intros rt' [].
        -- intros rt' _. apply RouteMatch_eqb_eq in EX. rewrite EX.
           apply BetterThan_le. pose proof (RouteMatch_int_range (rank rt')).
           cbn [RouteMatch_int]. lia.
      * specialize (IH (mkBest m vals (Some r0) (S (examined b)))).
        cbn zeta in IH. cbn [bestRoute bestMatch bestVals examined] in IH.
        destruct IH as [(E1 & E2 & E3 & Hall & Hex)
                       |(l1 & rt & l2 & -> & E1 & E2 & E3 & Hb & H1 & H2 & Hex)].
        -- right. exists [], r0, rts. rewrite E1, E2, E3, Hex, Hr0, EM, EX.
           cbn [List.length snd app].
           repeat split; try assumption; try lia.
           intros rt' [].
        -- right. exists (r0 :: l1), rt, l2. rewrite E1, E2, E3, Hex.
           repeat split; try assumption.
           ++ apply BetterThan_gt in EB, Hb. apply BetterThan_gt. lia.
           ++ intros rt' [<-|Hin]; [now rewrite Hr0 | now apply H1].
           ++ cbn [List.length]. destruct (RouteMatch_eqb (rank rt) ExactMatch); lia.
    + specialize (IH (mkBest (bestMatch b) (bestVals b) (bestRoute b) (S (examined b)))).
      cbn zeta in IH. cbn [bestRoute bestMatch bestVals examined] in IH.
      destruct IH as [(E1 & E2 & E3 & Hall & Hex)
                     |(l1 & rt & l2 & -> & E1 & E2 & E3 & Hb & H1 & H2 & Hex)].
      * left. rewrite E1, E2, E3, Hex. cbn [List.length].
        repeat split; try lia.
        intros rt [<-|Hin]; [now rewrite Hr0 | now apply Hall].
      * right. exists (r0 :: l1), rt, l2. rewrite E1, E2, E3, Hex.
        repeat split; try assumption.
        -- intros rt' [<-|Hin]; [| now apply H1].
           rewrite Hr0. apply BetterThan_le in EB. apply BetterThan_gt in Hb.
           apply BetterThan_gt. lia.
        -- cbn [List.length]. destruct (RouteMatch_eqb (rank rt) ExactMatch); lia.
Qed.
End Scan.

Lemma MatchMethod_cases rt m :
  (m = rt.(method) -> MatchMethod rt m = ExactMatch)
  /\ (m <> rt.(method) -> m = "HEAD" -> rt.(method) = "GET" ->
      MatchMethod rt m = OverloadMatch)
  /\ (m <> rt.(method) -> ~ (m = "HEAD" /\ rt.(method) = "GET") -> rt.(method) = "*" ->
      MatchMethod rt m = StarMatch)
  /\ (m <> rt.(method) -> ~ (m = "HEAD" /\ rt.(method) = "GET") -> rt.(method) <> "*" ->
      MatchMethod rt m = NoMatch).
Proof.
  unfold MatchMethod.
  destruct (String.eqb_spec m rt.(method)) as [E|E];
    destruct (String.eqb_spec m "HEAD") as [E1|E1];
    destruct (String.eqb_spec rt.(method) "GET") as [E2|E2];
    destruct (String.eqb_spec rt.(method) "*") as [E3|E3];
    simpl; repeat split; intros; try reflexivity; try tauto; try congruence.
Qed.

Lemma Match_rank rt m p :
  fst (Match rt m p) = MatchMethod rt m \/ fst (Match rt m p) = NoMatch.
Proof.
  unfold Match. destruct (RouteMatch_eqb (MatchMethod rt m) NoMatch); [now left|].
  match goal with |- context [if ?b then _ else _] => destruct b end; [now left | now right].
Qed.

(** A table of three routes on one path: a [HEAD] request takes the first
    [GET] route (overload beats star, the earlier of two equals wins) and
    the loop looks at all three routes; a [GET] request takes the same
    route as an exact match and the loop stops there. *)
Example scan_three_routes :
  exists r1 r2 r3,
    newRoute "*" "/x" [] = Done r1
    /\ newRoute "GET" "/x" [Func (Return [VString "first"])] = Done r2
    /\ newRoute "GET" "/x" [Func (Return [VString "second"])] = Done r3
    /\ scan [r1; r2; r3] "HEAD" "/x" (mkBest NoMatch None None 0)
       = mkBest OverloadMatch (Some []) (Some r2) 3
    /\ scan [r1; r2; r3] "GET" "/x" (mkBest NoMatch None None 0)
       = mkBest ExactMatch (Some []) (Some r2) 2
    /\ scan [r1; r2; r3] "POST" "/x" (mkBest NoMatch None None 0)
       = mkBest StarMatch (Some []) (Some r1) 3
    /\ scan [r2; r3] "POST" "/x" (mkBest NoMatch None None 0)
       = mkBest NoMatch None None 2.
Proof.
  eexists _, _, _. split; [vm_compute; reflexivity|].
  split; [vm_compute; reflexivity|]. split; [vm_compute; reflexivity|].
  repeat split.
Qed.

Section Dispatch.
Variable marshal : Value -> option string.

(** C7. [Handle] goes through the routes in the order of their
    registration and keeps the best rank it has seen, where
    [ExactMatch > OverloadMatch > StarMatch > NoMatch] and the rank of a
    route is the rank of its method (exact for the method itself,
    overload for [HEAD] on a [GET] route, star for the method ["*"]) or
    [NoMatch]; the route it runs is the first of those of the best rank;
    it looks at no route behind the first [ExactMatch]; and when no route
    has a rank above [NoMatch] it runs the not-found chain. *)
Theorem Handle_runs_best_route (r : router) (c : context) (fuel : nat) :
  let meth := c.(c_request).(Method) in
  let path := c.(c_request).(Path) in
  let rank := fun rt => fst (Match rt meth path) in
  let b := scan r.(routes) meth path (mkBest NoMatch None None 0) in
  (BetterThan ExactMatch OverloadMatch = true
   /\ BetterThan OverloadMatch StarMatch = true
   /\ BetterThan StarMatch NoMatch = true
   /\ (forall x y z, BetterThan x y = true -> BetterThan y z = true ->
                     BetterThan x z = true)
   /\ (forall x y, x = y \/ BetterThan x y = true \/ BetterThan y x = true)
   /\ (forall x, BetterThan x x = false))
  /\ (forall rt m,
         (m = rt.(method) -> MatchMethod rt m = ExactMatch)
         /\ (m <> rt.(method) -> m = "HEAD" -> rt.(method) = "GET" ->
             MatchMethod rt m = OverloadMatch)
         /\ (m <> rt.(method) -> ~ (m = "HEAD" /\ rt.(method) = "GET") ->
             rt.(method) = "*" -> MatchMethod rt m = StarMatch)
         /\ (rank rt = MatchMethod rt meth \/ rank rt = NoMatch))
  /\ (forall rt, In rt r.(routes) -> BetterThan (rank rt) b.(bestMatch) = false)
  /\ ((forall rt, In rt r.(routes) -> rank rt = NoMatch) ->
      b.(bestMatch) = NoMatch
      /\ b.(examined) = List.length r.(routes)
      /\ Handle marshal fuel r c =
         (rc <- routeContext_run marshal fuel (mkRouteContext c 0 r.(notFounds)) ;;
          Done rc.(Context)))
  /\ ((exists rt, In rt r.(routes) /\ rank rt <> NoMatch) ->
      exists l1 rt l2,
        r.(routes) = (l1 ++ rt :: l2)%list
        /\ b.(bestRoute) = Some rt
        /\ b.(bestMatch) = rank rt
        /\ rank rt <> NoMatch
        /\ (forall rt', In rt' l1 -> BetterThan (rank rt) (rank rt') = true)
        /\ (forall rt', In rt' l2 -> BetterThan (rank rt') (rank rt) = false)
        /\ b.(examined) = (if RouteMatch_eqb (rank rt) ExactMatch
                           then S (List.length l1) else List.length r.(routes))
        /\ Handle marshal fuel r c =
           route_Handle marshal fuel rt (set_params (snd (Match rt meth path)) c)).
Proof.
  intros meth path rank b.
  pose proof (scan_from meth path r.(routes) (mkBest NoMatch None None 0)) as HS.
  cbn zeta in HS. fold b in HS. cbn [bestMatch bestVals bestRoute examined] in HS.
  fold rank in HS.
  split; [|split; [|split; [|split]]].
  - repeat split; try reflexivity.
    + intros x y z H1 H2. apply BetterThan_gt in H1, H2. apply BetterThan_gt. lia.
    + intros x y.
      destruct (Z.lt_trichotomy (RouteMatch_int x) (RouteMatch_int y)) as [H|[H|H]].
      * right; right. apply BetterThan_gt. lia.
      * left. now apply RouteMatch_int_inj.
      * right; left. apply BetterThan_gt. lia.
    + intros x. apply BetterThan_le. lia.
  - intros rt m. pose proof (MatchMethod_cases rt m) as (H1 & H2 & H3 & _).
    repeat split; try assumption. apply Match_rank.
  - intros rt Hin.
    destruct HS as [(E1 & _ & _ & Hall & _)
                   |(l1 & rt0 & l2 & E & _ & E2 & _ & _ & H1 & H2 & _)].
    + rewrite E1. now apply Hall.
    + rewrite E2. rewrite E in Hin. apply in_app_or in Hin.
      destruct Hin as [Hin|[<-|Hin]].
      * apply H1 in Hin. apply BetterThan_gt in Hin. apply BetterThan_le.
        unfold rank in *. lia.
      * apply BetterThan_le. unfold rank in *. lia.
      * now apply H2.
  - intros Hnone.
    destruct HS as [(E1 & _ & _ & _ & Hex)
                   |(l1 & rt0 & l2 & E & _ & _ & _ & Hb & _)].
    + unfold Handle. fold meth path b. rewrite E1. simpl in Hex. now repeat split.
    + assert (Hr : rank rt0 = NoMatch).
      { apply Hnone. rewrite E. apply in_or_app. right. now left. }
      unfold rank in *. rewrite Hr in Hb. discriminate.
  - intros (rt & Hin & Hrank).
    destruct HS as [(_ & _ & _ & Hall & _)
                   |(l1 & rt0 & l2 & E & E1 & E2 & E3 & Hb & H1 & H2 & Hex)].
    + apply Hall in Hin. apply BetterThan_le in Hin.
      pose proof (RouteMatch_int_range (rank rt)). elim Hrank.
      apply RouteMatch_int_inj. unfold rank in *.
      cbn [RouteMatch_int bestMatch] in *. lia.
    + assert (Hne : rank rt0 <> NoMatch).
      { intros Heq. unfold rank in *. rewrite Heq in Hb. discriminate. }
      rewrite Nat.add_0_l in Hex.
      exists l1, rt0, l2. repeat split; try assumption.
      unfold Handle. fold meth path b. rewrite E2, E1, E3.
      unfold rank in *.
      destruct (RouteMatch_eqb (fst (Match rt0 meth path)) NoMatch) eqn:EN;
        [|reflexivity].
      apply RouteMatch_eqb_eq in EN. contradiction.
Qed.
End Dispatch.

(** ** Contexts *)

#[export] Instance context_EmbedsLaw : EmbedsLaw context.
Proof. intros c s. reflexivity. Qed.

#[export] Instance routeContext_EmbedsLaw : EmbedsLaw routeContext.
Proof. intros c s. reflexivity. Qed.

Lemma IsStopped_gt c : IsStopped c = true <-> (c.(c_index) > len_handlers c)%Z.
Proof.
  unfold IsStopped. rewrite negb_true_iff, Z.leb_gt. lia.
Qed.

Lemma IsStopped_Stop c : IsStopped (Stop c) = true.
Proof. apply IsStopped_gt. unfold Stop, len_handlers. simpl. lia. Qed.

Lemma quiet_app stopped tr e :
  quiet stopped (tr ++ [e]) =
  quiet stopped tr && negb ((stopped || existsb is_stop tr) && is_top_invoke e).
Proof.
  revert stopped. induction tr as [|x tr IH]; intros stopped; simpl.
  - now rewrite orb_false_r, !andb_true_r.
  - rewrite IH. rewrite <- !andb_assoc. now rewrite orb_assoc.
Qed.

Lemma existsb_stop_app tr e :
  existsb is_stop (tr ++ [e]) = existsb is_stop tr || is_stop e.
Proof. rewrite existsb_app. simpl. now rewrite orb_false_r. Qed.

(** What [quiet] says, in terms of the places of the history. *)
Lemma quiet_spec tr :
  quiet false tr = true <->
  (forall t1 t2 i, tr = (t1 ++ CalledStop :: t2)%list -> ~ In (Invoked Top i) t2).
Proof.
  assert (Htrue : forall tr, quiet true tr = true <-> forall i, ~ In (Invoked Top i) tr).
  { induction tr0 as [|e tr0 IH]; simpl.
    - split; [intros _ i [] | reflexivity].
    - rewrite andb_true_iff, IH. split.
      + intros [He H] i [E|Hin]; [subst e; discriminate | now apply (H i)].
      + intros H. split.
        * destruct e as [[|] j| | |]; simpl; try reflexivity.
          elim (H j). now left.
        * intros i Hin. apply (H i). now right. }
  induction tr as [|e tr IH]; simpl.
  - split; [|reflexivity]. intros _ [|x t1] t2 i E; discriminate.
  - destruct (is_stop e) eqn:Es.
    + destruct e; try discriminate. simpl. rewrite Htrue. split.
      * intros H [|x t1] t2 i E.
        -- injection E as E. subst t2. apply H.
        -- injection E as E1 E2. intros Hin. apply (H i). rewrite E2.
           apply in_or_app. right. now right.
      * intros H i. apply (H [] tr i eq_refl).
    + simpl. rewrite IH. split.
      * intros H [|x t1] t2 i E.
        -- injection E as E1 E2. subst e. discriminate.
        -- injection E as E1 E2. now apply (H t1 t2 i).
      * intros H t1 t2 i E. apply (H (e :: t1) t2 i). simpl. now rewrite E.
Qed.

Section Settled.
Context {S : Type} `{EmbedsLaw S}.

Lemma settled_record_other (e : event) (c : context) :
  is_top_invoke e = false -> is_stop e = false ->
  settled c -> settled (record e c).
Proof.
  intros He Hs [Hq Hst]. unfold settled, record. simpl.
  rewrite quiet_app, existsb_stop_app, He, Hs, Hq, andb_false_r, orb_false_r.
  split; [reflexivity|]. exact Hst.
Qed.

Lemma settled_set_rw w c : settled c -> settled (set_rw w c).
Proof. intros H0. exact H0. Qed.

Lemma settled_set_params p c : settled c -> settled (set_params p c).
Proof. intros H0. exact H0. Qed.

Lemma settled_Stop c : settled c -> settled (Stop c).
Proof.
  intros [Hq _]. split.
  - unfold Stop, record. simpl. rewrite quiet_app, Hq. simpl.
    now rewrite andb_false_r.
  - intros _. apply IsStopped_Stop.
Qed.

Lemma settled_advance c : settled c -> settled (set_index (c.(c_index) + 1) c).
Proof.
  intros [Hq Hst]. split; [exact Hq|]. simpl. intros Hs.
  apply Hst in Hs. apply IsStopped_gt in Hs. apply IsStopped_gt.
  unfold len_handlers in *. simpl. lia.
Qed.

Lemma settled_record_top i c :
  settled c -> IsStopped c = false -> settled (record (Invoked Top i) c).
Proof.
  intros [Hq Hst] Hns. unfold settled, record. simpl.
  rewrite quiet_app, existsb_stop_app, Hq. simpl. rewrite orb_false_r.
  destruct (existsb is_stop (c_trace c)) eqn:Ex.
  - rewrite (Hst eq_refl) in Hns. discriminate.
  - split; [reflexivity | discriminate].
Qed.

Lemma settled_ctx_Stop (s : S) : settled (embedded s) -> settled (embedded (ctx_Stop s)).
Proof.
  intros Hs. unfold ctx_Stop. rewrite embedded_with_embedded. now apply settled_Stop.
Qed.

Lemma settled_res_Write b (s : S) :
  settled (embedded s) -> settled (embedded (res_Write b s)).
Proof.
  intros Hs. unfold res_Write. rewrite embedded_with_embedded.
  apply settled_record_other; try reflexivity. now apply settled_set_rw.
Qed.

Lemma settled_res_WriteHeader st (s : S) :
  settled (embedded s) -> settled (embedded (res_WriteHeader st s)).
Proof.
  intros Hs. unfold res_WriteHeader. rewrite embedded_with_embedded.
  apply settled_record_other; try reflexivity. now apply settled_set_rw.
Qed.

Lemma settled_call (next : S -> result S) :
  (forall s s', settled (embedded s) -> next s = Done s' -> settled (embedded s')) ->
  forall p s vals s',
    settled (embedded s) -> call next p s = Done (vals, s') -> settled (embedded s').
Proof.
  intros Hnext. induction p as [vals0|msg|k IH|k IH|k IH|k IH|b k IH|st k IH];
    intros s vals s' Hs; simpl.
  - now intros [= _ <-].
  - discriminate.
  - destruct (next s) as [s1| | |] eqn:En; simpl; try discriminate.
    apply IH. now apply (Hnext s).
  - apply IH. now apply settled_ctx_Stop.
  - now apply IH.
  - now apply IH.
  - apply IH. now apply settled_res_Write.
  - apply IH. now apply settled_res_WriteHeader.
Qed.

Lemma settled_Invoke (next : S -> result S) :
  (forall s s', settled (embedded s) -> next s = Done s' -> settled (embedded s')) ->
  forall h s vals s',
    settled (embedded s) -> Invoke next h s = Done (vals, s') -> settled (embedded s').
Proof.
  intros Hnext [|body] s vals s' Hs; simpl; [discriminate|].
  now apply settled_call.
Qed.

Variable marshal : Value -> option string.

Lemma settled_write_value v (s s' : S) :
  settled (embedded s) -> write_value marshal v s = Done s' -> settled (embedded s').
Proof.
  intros Hs. unfold write_value.
  destruct (isByteSlice v); [intros [= <-]; now apply settled_res_Write|].
  destruct (isString v); [intros [= <-]; now apply settled_res_Write|].
  destruct v; try discriminate;
    (destruct (marshal _); [intros [= <-]; now apply settled_res_Write | discriminate]).
Qed.

Lemma settled_status_and_body (s : S) vals :
  settled (embedded s) -> settled (embedded (fst (status_and_body s vals))).
Proof.
  intros Hs. unfold status_and_body.
  destruct (1 <? List.length vals)%nat; simpl; [now apply settled_res_WriteHeader|].
  now destruct (0 <? List.length vals)%nat.
Qed.

Lemma settled_router_protocol (s s' : S) vals :
  settled (embedded s) ->
  defaultRouterReturnHandler marshal s vals = Done s' -> settled (embedded s').
Proof.
  intros Hs. unfold defaultRouterReturnHandler.
  destruct (passes vals); [now intros [= <-]|].
  destruct (refuses vals).
  - intros [= <-]. now apply settled_ctx_Stop, settled_res_Write.
  - pose proof (settled_status_and_body s vals Hs) as H1.
    destruct (status_and_body s vals) as [s1 v]. simpl in H1.
    now apply settled_write_value.
Qed.

Lemma settled_middleware_protocol (s s' : S) vals :
  settled (embedded s) ->
  defaultMiddlewareReturnHandler marshal s vals = Done s' -> settled (embedded s').
Proof.
  intros Hs. unfold defaultMiddlewareReturnHandler.
  destruct (passes vals); [now intros [= <-]|].
  destruct (refuses vals).
  - intros [= <-]. now apply settled_ctx_Stop, settled_res_Write.
  - pose proof (settled_status_and_body s vals Hs) as H1.
    destruct (status_and_body s vals) as [s1 v]. simpl in H1.
    apply settled_write_value. now apply settled_ctx_Stop.
Qed.
End Settled.

(** ** Running the chains *)

Lemma bind_Done {A B : Type} (m : result A) (f : A -> result B) (b : B) :
  bind m f = Done b -> exists a, m = Done a /\ f a = Done b.
Proof. destruct m as [a| | |]; simpl; try discriminate. intros E. now exists a. Qed.

Section RunFacts.
Variable marshal : Value -> option string.

Lemma settled_routeContext_run : forall fuel r r',
  settled r.(Context) ->
  routeContext_run marshal fuel r = Done r' -> settled r'.(Context).
Proof.
  induction fuel as [|fuel IH]; intros r r' Hs; simpl; [discriminate|].
  destruct (r_index r <? Z.of_nat (List.length (r_handlers r)))%Z;
    [|now intros [= <-]].
  destruct (at_index (r_handlers r) (r_index r)) as [h|]; [|discriminate].
  intros E. apply bind_Done in E. destruct E as ([vals r1] & E1 & E2).
  assert (H1 : settled r1.(Context)).
  { apply (settled_Invoke (S:=routeContext)
             (fun r' => routeContext_run marshal fuel (r_set_index (r_index r' + 1) r')))
      in E1; [exact E1 | |].
    - intros s s' Hs' Hn. apply IH in Hn; [exact Hn | exact Hs'].
    - apply settled_record_other; auto. }
  destruct (0 <? List.length vals)%nat.
  - apply (settled_router_protocol (S:=routeContext) marshal _ _ vals) in E2; auto.
  - destruct (ctx_Written _); [now injection E2 as <-|].
    now apply IH in E2.
Qed.

Lemma settled_Handle fuel r c c' :
  settled c -> Handle marshal fuel r c = Done c' -> settled c'.
Proof.
  intros Hs. unfold Handle, route_Handle.
  destruct (negb _).
  - destruct (bestRoute _) as [rt|]; [|discriminate].
    intros E. apply bind_Done in E. destruct E as (rc & E1 & [= <-]).
    now apply settled_routeContext_run in E1.
  - intros E. apply bind_Done in E. destruct E as (rc & E1 & [= <-]).
    now apply settled_routeContext_run in E1.
Qed.

Lemma settled_run : forall fuel c c',
  settled c -> run marshal fuel c = Done c' -> settled c'.
Proof.
  induction fuel as [|fuel IH]; intros c c' Hs; simpl; [discriminate|].
  destruct (IsStopped c) eqn:Est; [now intros [= <-]|].
  intros E. apply bind_Done in E. destruct E as (h & _ & E).
  apply bind_Done in E. destruct E as ([vals c1] & E1 & E).
  apply bind_Done in E. destruct E as (c2 & E2 & E).
  assert (H0 : settled (record (Invoked Top (c_index c)) c))
    by now apply settled_record_top.
  assert (H1 : settled c1).
  { destruct h as [f|rt].
    - apply (settled_Invoke (S:=context)
               (fun c' => run marshal fuel (set_index (c_index c' + 1) c'))) in E1;
        [exact E1 | | exact H0].
      intros s s' Hs' Hn. apply IH in Hn; [exact Hn|]. now apply settled_advance.
    - apply bind_Done in E1. destruct E1 as (c0 & E1 & [= _ <-]).
      now apply settled_Handle in E1. }
  assert (H2 : settled c2).
  { apply (settled_middleware_protocol (S:=context) marshal c1 c2 vals) in E2;
      [exact E2 | exact H1]. }
  apply settled_advance in H2.
  destruct (Written _); [now injection E as <-|].
  destruct (IsStopped (set_index _ _)); [now injection E as <-|].
  now apply IH in E.
Qed.

(** Once a handler has called [Stop] on the top-level context of a
    request, no handler of the top-level chain and not its action is
    invoked any more. *)
Theorem top_level_quiet_after_Stop fuel hs action req c :
  Next marshal fuel (NewContext hs action req) = Done c ->
  forall t1 t2 i,
    c.(c_trace) = (t1 ++ CalledStop :: t2)%list -> ~ In (Invoked Top i) t2.
Proof.
  intros E. apply quiet_spec. unfold Next in E.
  apply settled_run in E; [apply E|].
  split; [reflexivity | discriminate].
Qed.

Lemma run_stopped fuel c : IsStopped c = true -> run marshal (S fuel) c = Done c.
Proof. intros E. simpl. now rewrite E. Qed.

(** The loop of the top-level context goes on after a handler that
    returned nothing or [true], unless the response is written or the
    context stopped. *)
Lemma run_goes_on fuel c f vals c1 :
  IsStopped c = false ->
  handler c = Done (Plain f) ->
  Invoke (fun c' => run marshal fuel (set_index (c_index c' + 1) c')) f
         (record (Invoked Top c.(c_index)) c) = Done (vals, c1) ->
  passes vals = true ->
  run marshal (S fuel) c =
  (let c3 := set_index (c1.(c_index) + 1) c1 in
   if Written c3 then Done c3
   else if IsStopped c3 then Done c3
   else run marshal fuel c3).
Proof.
  intros Est Hh Hi Hp. cbn [run]. rewrite Est, Hh. cbn [bind]. rewrite Hi. cbn [bind].
  unfold defaultMiddlewareReturnHandler. now rewrite Hp.
Qed.
End RunFacts.

(** ** The cursor *)

(** C6 (as the code has it). [IsStopped] answers [true] exactly when the
    cursor is past the place of the terminal action, that is at
    [len(handlers) + 1] or beyond; at [len(handlers)] the action is still
    to run and the context is not stopped. *)
Theorem IsStopped_iff_past_action (c : context) :
  IsStopped c = true <-> (c.(c_index) >= len_handlers c + 1)%Z.
Proof. rewrite IsStopped_gt. lia. Qed.

(** C6 as stated fails: with the cursor at [len(handlers)], a value of the
    valid range, the context is not stopped. *)
Lemma IsStopped_at_action_counterexample :
  let c := set_index 1 (NewContext [Func (Return [])] (RouterHandle NewRouter)
                                   (mkRequest "GET" "/")) in
  (-1 <= c.(c_index) <= len_handlers c + 1)%Z
  /\ (c.(c_index) >= len_handlers c)%Z
  /\ IsStopped c = false.
Proof. cbv zeta. repeat split; vm_compute; congruence. Qed.

(** ** The protocols *)

Lemma passes_cons v rest : v <> VBool true -> passes (v :: rest) = false.
Proof.
  intros Hv. unfold passes. simpl.
  destruct v as [|[|]| | | | | | | |]; try reflexivity. now elim Hv.
Qed.

Lemma refuses_iff vals : refuses vals = true <-> vals = [VBool false].
Proof.
  unfold refuses. split.
  - destruct vals as [|v [|w vals]]; simpl; try discriminate.
    destruct v as [|[|]| | | | | | | |]; simpl; try discriminate. reflexivity.
  - now intros ->.
Qed.

Section Untouched.
Context {S : Type} `{EmbedsLaw S}.

Lemma same_stops_res_Write b (s : S) :
  same_stops (embedded s) (embedded (res_Write b s)).
Proof.
  unfold res_Write, same_stops. rewrite embedded_with_embedded. simpl.
  rewrite filter_app. simpl. now rewrite app_nil_r.
Qed.

Lemma same_stops_res_WriteHeader st (s : S) :
  same_stops (embedded s) (embedded (res_WriteHeader st s)).
Proof.
  unfold res_WriteHeader, same_stops. rewrite embedded_with_embedded. simpl.
  rewrite filter_app. simpl. now rewrite app_nil_r.
Qed.

Lemma same_stops_trans c1 c2 c3 :
  same_stops c1 c2 -> same_stops c2 c3 -> same_stops c1 c3.
Proof. intros [A1 B1] [A2 B2]. split; congruence. Qed.

Variable marshal : Value -> option string.

Lemma router_protocol_no_Stop (s : S) vals :
  vals <> [VBool false] ->
  match defaultRouterReturnHandler marshal s vals with
  | Done s' => same_stops (embedded s) (embedded s')
  | Panic _ => True
  | _ => False
  end.
Proof.
  intros Hv. unfold defaultRouterReturnHandler.
  destruct (passes vals); [now split|].
  destruct (refuses vals) eqn:Er; [apply refuses_iff in Er; contradiction|].
  assert (H1 : same_stops (embedded s) (embedded (fst (status_and_body s vals)))).
  { unfold status_and_body. destruct (1 <? List.length vals)%nat; simpl.
    - apply same_stops_res_WriteHeader.
    - destruct (0 <? List.length vals)%nat; now split. }
  destruct (status_and_body s vals) as [s1 v]. simpl in H1.
  unfold write_value.
  destruct (isByteSlice _);
    [eapply same_stops_trans; [exact H1 | apply same_stops_res_Write]|].
  destruct (isString _);
    [eapply same_stops_trans; [exact H1 | apply same_stops_res_Write]|].
  destruct (deref v); try exact I;
    (destruct (marshal _); [|exact I]);
    (eapply same_stops_trans; [exact H1 | apply same_stops_res_Write]).
Qed.

Lemma middleware_protocol_stops (s : S) v rest :
  v <> VBool true ->
  match defaultMiddlewareReturnHandler marshal s (v :: rest) with
  | Done s' =>
      IsStopped (embedded s') = true /\ existsb is_stop (embedded s').(c_trace) = true
  | Panic _ => True
  | _ => False
  end.
Proof.
  intros Hv. unfold defaultMiddlewareReturnHandler.
  rewrite (passes_cons v rest Hv).
  assert (Hw : forall b (s0 : S),
             IsStopped (embedded s0) = true /\
             existsb is_stop (embedded s0).(c_trace) = true ->
             IsStopped (embedded (res_Write b s0)) = true /\
             existsb is_stop (embedded (res_Write b s0)).(c_trace) = true).
  { intros b s0 [A B]. unfold res_Write. rewrite embedded_with_embedded. simpl.
    split; [exact A|]. rewrite existsb_app, B. reflexivity. }
  assert (Hst : forall s0 : S,
             IsStopped (embedded (ctx_Stop s0)) = true /\
             existsb is_stop (embedded (ctx_Stop s0)).(c_trace) = true).
  { intros s0. unfold ctx_Stop. rewrite embedded_with_embedded.
    split; [apply IsStopped_Stop|]. unfold Stop, record. simpl.
    rewrite existsb_app. simpl. now rewrite orb_true_r. }
  destruct (refuses (v :: rest)); [apply Hst|].
  destruct (status_and_body s (v :: rest)) as [s1 w].
  unfold write_value.
  destruct (isByteSlice _); [apply Hw, Hst|].
  destruct (isString _); [apply Hw, Hst|].
  destruct (deref w); try exact I;
    (destruct (marshal _); [apply Hw, Hst | exact I]).
Qed.
End Untouched.

Section Protocols.
Variable marshal : Value -> option string.

(** C1 (the code at the failing input). A route with two handlers, the
    first of which calls [Stop] and returns nothing: the second handler of
    the route is invoked all the same, after the call of [Stop]. *)
Theorem route_handler_runs_after_Stop :
  exists r i c,
    addRoute NewRouter "GET" "/x"
             [Func (CallStop (Return [])); Func (Write "second" (Return []))]
    = Done (r, i)
    /\ ServeHTTP_dispatch marshal 3 (New_yawf r) (mkRequest "GET" "/x") = Done c
    /\ c.(c_trace) = [Invoked Top 0; Invoked InRoute 0; CalledStop;
                      Invoked InRoute 1; Wrote "second"].
Proof.
  eexists _, _, _. split; [vm_compute; reflexivity|].
  split; vm_compute; reflexivity.
Qed.

(** C2 (the code at the failing input). A route with two handlers, the
    first of which returns [true]: nothing is written, and the second
    handler of the route is never invoked. *)
Theorem route_chain_ends_on_true :
  exists r i c,
    addRoute NewRouter "GET" "/x"
             [Func (Return [VBool true]); Func (Write "second" (Return []))]
    = Done (r, i)
    /\ ServeHTTP_dispatch marshal 3 (New_yawf r) (mkRequest "GET" "/x") = Done c
    /\ c.(c_trace) = [Invoked Top 0; Invoked InRoute 0]
    /\ Written c = false.
Proof.
  eexists _, _, _. split; [vm_compute; reflexivity|].
  split; [vm_compute; reflexivity|]. split; vm_compute; reflexivity.
Qed.

(** C3 (as the code has it). When a global middleware handler returns
    values of which the first is not the boolean [true], the middleware
    protocol stops the top-level context (or the request panics), and the
    loop of that context ends there, so that no later middleware and not
    the action runs; and for values other than the single boolean [false]
    the route protocol calls [Stop] on no context and moves no cursor. *)
Theorem middleware_write_stops (c : context) (v : Value) (rest : list Value) :
  v <> VBool true ->
  match defaultMiddlewareReturnHandler marshal c (v :: rest) with
  | Done c' =>
      IsStopped c' = true
      /\ existsb is_stop c'.(c_trace) = true
      /\ (forall fuel c0 f,
             IsStopped c0 = false ->
             handler c0 = Done (Plain f) ->
             Invoke (fun x => run marshal fuel (set_index (c_index x + 1) x)) f
                    (record (Invoked Top c0.(c_index)) c0) = Done (v :: rest, c) ->
             run marshal (S fuel) c0 = Done (set_index (c'.(c_index) + 1) c'))
  | Panic _ => True
  | _ => False
  end
  /\ (forall (r : routeContext) (vals : list Value),
         vals <> [VBool false] ->
         match defaultRouterReturnHandler marshal r vals with
         | Done r' =>
             filter is_stop r'.(Context).(c_trace) = filter is_stop r.(Context).(c_trace)
             /\ r'.(Context).(c_index) = r.(Context).(c_index)
             /\ r'.(r_index) = r.(r_index)
         | Panic _ => True
         | _ => False
         end).
Proof.
  intros Hv. split.
  - pose proof (middleware_protocol_stops (S:=context) marshal c v rest Hv) as Hm.
    destruct (defaultMiddlewareReturnHandler marshal c (v :: rest)) as [c'| | |] eqn:E;
      try exact Hm.
    cbn [embedded context_Embeds] in Hm.
    destruct Hm as [A B]. split; [exact A|]. split; [exact B|].
    intros fuel c0 f Est Hh Hi. cbn [run]. rewrite Est, Hh. cbn [bind].
    rewrite Hi. cbn [bind]. rewrite E. cbn [bind].
    assert (Hst : IsStopped (set_index (c_index c' + 1) c') = true).
    { apply IsStopped_gt. apply IsStopped_gt in A. unfold len_handlers in *.
      simpl. lia. }
    rewrite Hst. now destruct (Written _).
  - intros r vals Hvals.
    pose proof (router_protocol_no_Stop (S:=routeContext) marshal r vals Hvals) as Hr.
    destruct (defaultRouterReturnHandler marshal r vals) as [r'| | |] eqn:E;
      try exact Hr.
    destruct Hr as [A B]. split; [exact A|]. split; [exact B|].
    clear A B. revert E. unfold defaultRouterReturnHandler.
    destruct (passes vals); [now intros [= <-]|].
    destruct (refuses vals) eqn:Er; [apply refuses_iff in Er; contradiction|].
    unfold status_and_body, write_value.
    destruct (1 <? List.length vals)%nat;
      [|destruct (0 <? List.length vals)%nat];
      (destruct (isByteSlice _); [now intros [= <-]|]);
      (destruct (isString _); [now intros [= <-]|]);
      (destruct (deref _); try discriminate;
       (destruct (marshal _); [now intros [= <-] | discriminate])).
Qed.

(** C4 (as the code has it). For the single boolean [false] both
    protocols write an empty body and call [Stop], and [Stop] stops the
    top-level context in both: the route-scoped context embeds the
    top-level one and has no [Stop] of its own, its own cursor stays where
    it is, and its chain ends because its loop returns once a handler has
    returned values. *)
Theorem refusal_stops_top_level :
  (forall r : routeContext,
      let r' := ctx_Stop (res_Write EmptyString r) in
      defaultRouterReturnHandler marshal r [VBool false] = Done r'
      /\ r'.(Context).(c_trace) = (r.(Context).(c_trace) ++ [Wrote EmptyString; CalledStop])%list
      /\ r'.(Context).(c_rw).(rw_body) = r.(Context).(c_rw).(rw_body)
      /\ Written r'.(Context) = true
      /\ IsStopped r'.(Context) = true
      /\ r'.(r_index) = r.(r_index))
  /\ (forall c : context,
         let c' := Stop (res_Write EmptyString c) in
         defaultMiddlewareReturnHandler marshal c [VBool false] = Done c'
         /\ c'.(c_trace) = (c.(c_trace) ++ [Wrote EmptyString; CalledStop])%list
         /\ c'.(c_rw).(rw_body) = c.(c_rw).(rw_body)
         /\ Written c' = true
         /\ IsStopped c' = true)
  /\ (forall fuel (r r1 : routeContext) h,
         (r.(r_index) < Z.of_nat (List.length r.(r_handlers)))%Z ->
         at_index r.(r_handlers) r.(r_index) = Some h ->
         Invoke (fun x => routeContext_run marshal fuel (r_set_index (r_index x + 1) x))
                h (ctx_record (Invoked InRoute r.(r_index)) r)
         = Done ([VBool false], r1) ->
         routeContext_run marshal (S fuel) r
         = Done (ctx_Stop (res_Write EmptyString (r_set_index (r1.(r_index) + 1) r1)))).
Proof.
  split; [|split].
  - intros r r'. subst r'. unfold defaultRouterReturnHandler. simpl.
    repeat split.
    + unfold record. simpl. now rewrite <- app_assoc.
    + apply append_nil_r.
    + apply IsStopped_Stop.
  - intros c c'. subst c'. unfold defaultMiddlewareReturnHandler. simpl.
    repeat split.
    + unfold record. simpl. now rewrite <- app_assoc.
    + apply append_nil_r.
    + apply IsStopped_Stop.
  - intros fuel r r1 h Hlt Hat Hi. cbn [routeContext_run].
    apply Z.ltb_lt in Hlt. rewrite Hlt, Hat, Hi. reflexivity.
Qed.
End Protocols.

(** C3 as stated fails: the values [(true, "x")] are neither no values nor
    a single [true], and yet the middleware protocol writes nothing and
    does not stop: the next middleware and the action run. *)
Lemma middleware_true_first_counterexample :
  exists r i s c,
    addRoute NewRouter "GET" "/x" [Func (Write "route" (Return []))] = Done (r, i)
    /\ Use (New_yawf r) (Func (Return [VBool true; VString "x"])) = Done s
    /\ ServeHTTP_dispatch no_json 3 s (mkRequest "GET" "/x") = Done c
    /\ c.(c_trace) = [Invoked Top 0; Invoked Top 1; Invoked InRoute 0; Wrote "route"]
    /\ existsb is_stop c.(c_trace) = false.
Proof.
  eexists _, _, _, _. split; [vm_compute; reflexivity|].
  split; [vm_compute; reflexivity|].
  split; [vm_compute; reflexivity|]. split; reflexivity.
Qed.

Lemma middleware_write_stops_witness :
  VString "denied" <> VBool true
  /\ exists c',
      defaultMiddlewareReturnHandler no_json
        (set_index 0 (NewContext [Func (Return [VString "denied"])]
                                 (RouterHandle NewRouter) (mkRequest "GET" "/")))
        [VString "denied"] = Done c'
      /\ IsStopped c' = true.
Proof.
  split; [discriminate|].
  pose proof (middleware_write_stops no_json
                (set_index 0 (NewContext [Func (Return [VString "denied"])]
                                         (RouterHandle NewRouter) (mkRequest "GET" "/")))
                (VString "denied") [] ltac:(discriminate)) as [Hm _].
  eexists. split; [reflexivity|]. exact (proj1 Hm).
Defined.

(** C4 as stated fails: the route protocol leaves the cursor of the
    route-scoped context where it was and stops the top-level context. *)
Lemma route_refusal_counterexample :
  let c0 := set_index 1 (NewContext [Func (Return [])] (RouterHandle NewRouter)
                                    (mkRequest "GET" "/ping")) in
  let r0 := mkRouteContext c0 1 [Func (Return [VBool false]); Func (Return [])] in
  IsStopped c0 = false
  /\ exists r',
      defaultRouterReturnHandler no_json r0 [VBool false] = Done r'
      /\ IsStopped r'.(Context) = true
      /\ r'.(r_index) = 1%Z
      /\ (r'.(r_index) < Z.of_nat (List.length r'.(r_handlers)))%Z.
Proof.
  cbv zeta. split; [reflexivity|]. eexists. split; [reflexivity|].
  repeat split.
Qed.

(** ** The server *)

(** C5 (the code at the failing input). [ServeHTTP] never increments the
    counter: a request on a fresh server leaves it at -1; and when [Stop]
    is called while that request is in flight, the counter is still 0, so
    closure is signalled at once, and the end of the request signals
    nothing and sleeps no delay. *)
Theorem ServeHTTP_only_decrements (marshal : Value -> option string) :
  exists r i,
    addRoute NewRouter "GET" "/x" [Func (Write "ok" (Return []))] = Done (r, i)
    /\ let s0 := SetListener (New_yawf r) in
       let req := mkRequest "GET" "/x" in
       s0.(activeCount) = 0%Z
       /\ (exists s1 c, ServeHTTP marshal 3 s0 req = Done (s1, c)
                        /\ s1.(activeCount) = (-1)%Z)
       /\ (exists c s1 s2,
              ServeHTTP_dispatch marshal 3 s0 req = Done c
              /\ yawf_Stop s0 = Done s1
              /\ s1.(cClose) = [true]
              /\ ServeHTTP_finish s1 = Done s2
              /\ s2.(activeCount) = (-1)%Z
              /\ s2.(cClose) = [true]
              /\ s2.(slept) = []).
Proof.
  eexists _, _. split; [vm_compute; reflexivity|]. cbv zeta.
  split; [reflexivity|]. split.
  - eexists _, _. split; vm_compute; reflexivity.
  - eexists _, _, _. repeat split; vm_compute; reflexivity.
Qed.

(** The counter after a request, whatever it was before. *)
Lemma ServeHTTP_finish_count s s' :
  ServeHTTP_finish s = Done s' -> s'.(activeCount) = wrap32 (s.(activeCount) - 1).
Proof.
  unfold ServeHTTP_finish, send_close. simpl.
  destruct (isStopping s && _); [|now intros [= <-]].
  destruct (List.length (cClose s) <? 1)%nat; [now intros [= <-] | discriminate].
Qed.

(** ** Every request comes to an end *)

Lemma ended_bind {A B : Type} (m : result A) (f : A -> result B) :
  ended m -> (forall a, m = Done a -> ended (f a)) -> ended (bind m f).
Proof. destruct m as [a| | |]; simpl; intros Hm Hf; try exact Hm. now apply Hf. Qed.

Section Ends.
Context {S : Type} `{EmbedsLaw S}.
Variable Inv : S -> Prop.
Hypothesis Inv_Stop : forall s, Inv s -> Inv (ctx_Stop s).
Hypothesis Inv_Write : forall b s, Inv s -> Inv (res_Write b s).
Hypothesis Inv_WriteHeader : forall st s, Inv s -> Inv (res_WriteHeader st s).

Lemma call_ends (next : S -> result S) :
  (forall s, Inv s -> ended (next s) /\ forall s', next s = Done s' -> Inv s') ->
  forall p s, Inv s ->
    ended (call next p s) /\ forall vals s', call next p s = Done (vals, s') -> Inv s'.
Proof.
  intros Hnext. induction p as [vals0|msg|k IH|k IH|k IH|k IH|b k IH|st k IH];
    intros s Hs; simpl.
  - split; [exact Logic.I|]. now intros vals s' [= _ <-].
  - split; [exact Logic.I | discriminate].
  - destruct (Hnext s Hs) as [He Hi].
    destruct (next s) as [s1| | |]; simpl in *; try (split; [exact He | discriminate]).
    apply IH. now apply Hi.
  - apply IH. now apply Inv_Stop.
  - now apply IH.
  - now apply IH.
  - apply IH. now apply Inv_Write.
  - apply IH. now apply Inv_WriteHeader.
Qed.

Lemma Invoke_ends (next : S -> result S) :
  (forall s, Inv s -> ended (next s) /\ forall s', next s = Done s' -> Inv s') ->
  forall h s, Inv s ->
    ended (Invoke next h s) /\ forall vals s', Invoke next h s = Done (vals, s') -> Inv s'.
Proof.
  intros Hnext [|body] s Hs; simpl; [split; [exact Logic.I | discriminate]|].
  now apply call_ends.
Qed.

Variable marshal : Value -> option string.

Lemma write_value_ends v s :
  Inv s -> ended (write_value marshal v s)
         /\ forall s', write_value marshal v s = Done s' -> Inv s'.
Proof.
  intros Hs. unfold write_value.
  destruct (isByteSlice v); [split; [exact Logic.I | intros s' [= <-]; now apply Inv_Write]|].
  destruct (isString v); [split; [exact Logic.I | intros s' [= <-]; now apply Inv_Write]|].
  destruct v; try (split; [exact Logic.I | discriminate]);
    (destruct (marshal _);
     [split; [exact Logic.I | intros s' [= <-]; now apply Inv_Write]
     | split; [exact Logic.I | discriminate]]).
Qed.

Lemma status_and_body_keeps s vals : Inv s -> Inv (fst (status_and_body s vals)).
Proof.
  intros Hs. unfold status_and_body.
  destruct (1 <? List.length vals)%nat; simpl; [now apply Inv_WriteHeader|].
  now destruct (0 <? List.length vals)%nat.
Qed.

Lemma router_protocol_ends s vals :
  Inv s -> ended (defaultRouterReturnHandler marshal s vals)
         /\ forall s', defaultRouterReturnHandler marshal s vals = Done s' -> Inv s'.
Proof.
  intros Hs. unfold defaultRouterReturnHandler.
  destruct (passes vals); [split; [exact Logic.I | now intros s' [= <-]]|].
  destruct (refuses vals);
    [split; [exact Logic.I | intros s' [= <-]; now apply Inv_Stop, Inv_Write]|].
  pose proof (status_and_body_keeps s vals Hs) as H1.
  destruct (status_and_body s vals) as [s1 v]. simpl in H1.
  now apply write_value_ends.
Qed.

Lemma middleware_protocol_ends s vals :
  Inv s -> ended (defaultMiddlewareReturnHandler marshal s vals)
         /\ forall s', defaultMiddlewareReturnHandler marshal s vals = Done s' -> Inv s'.
Proof.
  intros Hs. unfold defaultMiddlewareReturnHandler.
  destruct (passes vals); [split; [exact Logic.I | now intros s' [= <-]]|].
  destruct (refuses vals);
    [split; [exact Logic.I | intros s' [= <-]; now apply Inv_Stop, Inv_Write]|].
  pose proof (status_and_body_keeps s vals Hs) as H1.
  destruct (status_and_body s vals) as [s1 v]. simpl in H1.
  apply write_value_ends. now apply Inv_Stop.
Qed.
End Ends.

Lemma within_Stop hs a j c : within hs a j c -> within hs a j (Stop c).
Proof.
  intros (Hh & Ha & Ht). repeat split; try assumption.
  unfold turns_left, Stop, len_handlers. simpl. lia.
Qed.

Lemma within_record hs a j e c : within hs a j c -> within hs a j (record e c).
Proof. intros H. exact H. Qed.

Lemma within_set_rw hs a j w c : within hs a j c -> within hs a j (set_rw w c).
Proof. intros H. exact H. Qed.

Lemma within_advance hs a j c :
  within hs a (S j) c -> within hs a j (set_index (c.(c_index) + 1) c).
Proof.
  intros (Hh & Ha & Ht). repeat split; try assumption.
  unfold turns_left, len_handlers in *. simpl. lia.
Qed.

Lemma within_le hs a j j' c : j <= j' -> within hs a j c -> within hs a j' c.
Proof. intros Hj (Hh & Ha & Ht). repeat split; try assumption. lia. Qed.

Lemma longest_chain_routes r rt :
  In rt r.(routes) -> List.length rt.(handlers) <= longest_chain r.
Proof.
  unfold longest_chain. induction (routes r) as [|x l IH]; simpl; [intros []|].
  intros [<-|Hin]; [lia|]. apply IH in Hin. lia.
Qed.

Lemma longest_chain_notFounds r : List.length r.(notFounds) <= longest_chain r.
Proof.
  unfold longest_chain. induction (routes r) as [|x l IH]; simpl; lia.
Qed.

Section RunEnds.
Variable marshal : Value -> option string.

Lemma routeContext_run_ends rhs hs a j : forall fuel r,
  r.(r_handlers) = rhs ->
  within hs a j r.(Context) ->
  Z.to_nat (Z.of_nat (List.length rhs) - r.(r_index)) < fuel ->
  ended (routeContext_run marshal fuel r)
  /\ forall r', routeContext_run marshal fuel r = Done r' ->
                r_within rhs r.(r_index) hs a j r'.
Proof.
  induction fuel as [|fuel IH]; intros r Hr Hw Hf; [lia|]. cbn [routeContext_run].
  destruct (r_index r <? Z.of_nat (List.length (r_handlers r)))%Z eqn:Elt.
  - apply Z.ltb_lt in Elt. rewrite Hr in Elt.
    destruct (at_index (r_handlers r) (r_index r)) as [h|];
      [|split; [exact Logic.I | discriminate]].
    pose (Inv := r_within rhs (r_index r) hs a j).
    assert (Hnext : forall s, Inv s ->
              ended (routeContext_run marshal fuel (r_set_index (r_index s + 1) s))
              /\ forall s', routeContext_run marshal fuel (r_set_index (r_index s + 1) s)
                            = Done s' -> Inv s').
    { intros s (Hs1 & Hs2 & Hs3).
      assert (Hlt : Z.to_nat (Z.of_nat (List.length rhs)
                                  - r_index (r_set_index (r_index s + 1) s)) < fuel)
        by (simpl; lia).
      destruct (IH (r_set_index (r_index s + 1) s) Hs1 Hs3 Hlt) as [He Hd].
      split; [exact He|]. intros s' Es. destruct (Hd s' Es) as (A & B & C).
      split; [exact A|]. split; [simpl in B; lia | exact C]. }
    assert (HStop : forall s : routeContext, Inv s -> Inv (ctx_Stop s)).
    { intros s (A & B & C). split; [exact A|].
      split; [exact B | exact (within_Stop _ _ _ _ C)]. }
    assert (HWrite : forall b (s : routeContext), Inv s -> Inv (res_Write b s)).
    { intros b s (A & B & C). split; [exact A|]. split; [exact B | exact C]. }
    assert (HHeader : forall st (s : routeContext), Inv s -> Inv (res_WriteHeader st s)).
    { intros st s (A & B & C). split; [exact A|]. split; [exact B | exact C]. }
    assert (H0 : Inv (ctx_record (Invoked InRoute (r_index r)) r)).
    { split; [exact Hr|]. split; [simpl; lia | exact Hw]. }
    destruct (Invoke_ends (S:=routeContext) Inv HStop HWrite HHeader
                (fun x => routeContext_run marshal fuel (r_set_index (r_index x + 1) x))
                Hnext h _ H0) as [He Hd].
    apply and_comm. split.
    + intros r' E. apply bind_Done in E. destruct E as ([vals r1] & E1 & E2).
      apply Hd in E1. destruct E1 as (A & B & C).
      assert (H2 : Inv (r_set_index (r_index r1 + 1) r1)).
      { split; [exact A|]. split; [simpl; lia | exact C]. }
      destruct (0 <? List.length vals)%nat.
      * apply (router_protocol_ends (S:=routeContext) Inv HStop HWrite HHeader
                 marshal _ vals H2) in E2.
        exact E2.
      * destruct (ctx_Written _); [now injection E2 as <-|].
        now apply (Hnext r1 (conj A (conj B C))) in E2.
    + apply ended_bind; [exact He|]. intros [vals r1] E1.
      apply Hd in E1. destruct E1 as (A & B & C).
      assert (H2 : Inv (r_set_index (r_index r1 + 1) r1)).
      { split; [exact A|]. split; [simpl; lia | exact C]. }
      destruct (0 <? List.length vals)%nat.
      * apply (router_protocol_ends (S:=routeContext) Inv HStop HWrite HHeader
                 marshal _ vals H2).
      * destruct (ctx_Written _); [exact Logic.I|].
        apply (Hnext r1 (conj A (conj B C))).
  - split; [exact Logic.I|]. intros r' [= <-].
    split; [exact Hr|]. split; [lia | exact Hw].
Qed.

Lemma Handle_ends hs a j fuel r c :
  longest_chain r < fuel ->
  within hs a j c ->
  ended (Handle marshal fuel r c)
  /\ forall c', Handle marshal fuel r c = Done c' -> within hs a j c'.
Proof.
  intros Hf Hw. unfold Handle, route_Handle.
  pose proof (scan_from (Method (c_request c)) (Path (c_request c)) (routes r)
                        (mkBest NoMatch None None 0)) as HS.
  cbn zeta in HS.
  destruct (negb _).
  - destruct HS as [(_ & _ & E3 & _)|(l1 & rt & l2 & E & E1 & _)].
    + rewrite E3. simpl. split; [exact Logic.I | discriminate].
    + rewrite E1.
      assert (Hlen : List.length (handlers rt) <= longest_chain r).
      { apply longest_chain_routes. rewrite E. apply in_or_app. right. now left. }
      assert (Hlt : Z.to_nat (Z.of_nat (List.length (handlers rt)) - 0) < fuel) by lia.
      destruct (routeContext_run_ends (handlers rt) hs a j fuel
                  (mkRouteContext (set_params (bestVals
                     (scan (routes r) (Method (c_request c)) (Path (c_request c))
                           (mkBest NoMatch None None 0))) c) 0 (handlers rt))
                  eq_refl Hw Hlt) as [He Hd].
      split.
      * apply ended_bind; [exact He|]. intros; exact Logic.I.
      * intros c' E'. apply bind_Done in E'. destruct E' as (rc & E1' & [= <-]).
        apply Hd in E1'. exact (proj2 (proj2 E1')).
  - pose proof (longest_chain_notFounds r) as Hlen.
    assert (Hlt : Z.to_nat (Z.of_nat (List.length (notFounds r)) - 0) < fuel) by lia.
    destruct (routeContext_run_ends (notFounds r) hs a j fuel
                (mkRouteContext c 0 (notFounds r)) eq_refl Hw Hlt) as [He Hd].
    split.
    + apply ended_bind; [exact He|]. intros; exact Logic.I.
    + intros c' E'. apply bind_Done in E'. destruct E' as (rc & E1' & [= <-]).
      apply Hd in E1'. exact (proj2 (proj2 E1')).
Qed.

Lemma run_ends hs a : forall fuel j c,
  within hs a j c ->
  j + action_depth a + 1 <= fuel ->
  ended (run marshal fuel c)
  /\ forall c', run marshal fuel c = Done c' -> within hs a j c'.
Proof.
  induction fuel as [|fuel IH]; intros j c Hw Hf; [lia|]. cbn [run].
  destruct (IsStopped c) eqn:Est; [split; [exact Logic.I | now intros c' [= <-]]|].
  assert (Hj : exists j', j = S j').
  { destruct Hw as (_ & _ & Ht). destruct j as [|j']; [|now exists j'].
    apply negb_false_iff, Z.leb_le in Est. unfold turns_left in Ht. lia. }
  destruct Hj as [j' ->].
  assert (Hnext : forall s, within hs a (S j') s ->
            ended (run marshal fuel (set_index (c_index s + 1) s))
            /\ forall s', run marshal fuel (set_index (c_index s + 1) s) = Done s' ->
                          within hs a (S j') s').
  { intros s Hs. assert (Hlt : j' + action_depth a + 1 <= fuel) by lia.
    destruct (IH j' _ (within_advance _ _ _ _ Hs) Hlt) as [He Hd].
    split; [exact He|]. intros s' Es. apply Hd in Es.
    apply (within_le _ _ j' (S j')); [lia | exact Es]. }
  assert (H0 : within hs a (S j') (record (Invoked Top (c_index c)) c)) by exact Hw.
  assert (HStop : forall s : context, within hs a (S j') s -> within hs a (S j') (ctx_Stop s)).
  { intros s Hs. exact (within_Stop _ _ _ _ Hs). }
  assert (HWrite : forall b (s : context),
             within hs a (S j') s -> within hs a (S j') (res_Write b s)).
  { intros b s Hs. exact Hs. }
  assert (HHeader : forall st (s : context),
             within hs a (S j') s -> within hs a (S j') (res_WriteHeader st s)).
  { intros st s Hs. exact Hs. }
  assert (Hcall :
            forall h, handler c = Done h ->
            let m := match h with
                     | Plain f =>
                         Invoke (fun c' => run marshal fuel (set_index (c_index c' + 1) c'))
                                f (record (Invoked Top (c_index c)) c)
                     | RouterHandle r =>
                         c' <- Handle marshal fuel r (record (Invoked Top (c_index c)) c) ;;
                         Done ([], c')
                     end in
            ended m /\ forall vals c1, m = Done (vals, c1) -> within hs a (S j') c1).
  { intros h Hh. cbn zeta. destruct h as [f|r].
    - apply (Invoke_ends (S:=context) (within hs a (S j')) HStop HWrite HHeader
               (fun c' => run marshal fuel (set_index (c_index c' + 1) c')) Hnext f _ H0).
    - assert (Ha : a = RouterHandle r).
      { destruct Hw as (_ & Ha & _). unfold handler in Hh.
        destruct (c_index c <? len_handlers c)%Z.
        - destruct (at_index _ _); discriminate.
        - destruct (c_index c =? len_handlers c)%Z; [|discriminate]. congruence. }
      assert (Hlt : longest_chain r < fuel) by (subst a; simpl in Hf; lia).
      destruct (Handle_ends hs a (S j') fuel r (record (Invoked Top (c_index c)) c)
                            Hlt H0) as [He Hd].
      split.
      + apply ended_bind; [exact He|]. intros; exact Logic.I.
      + intros vals c1 E. apply bind_Done in E. destruct E as (c0 & E0 & [= _ <-]).
        now apply Hd. }
  destruct (handler c) as [h| | |] eqn:Hh; cbn [bind];
    try (split; [exact Logic.I | discriminate]);
    try (unfold handler in Hh;
         destruct (c_index c <? len_handlers c)%Z;
         [destruct (at_index _ _); discriminate
         |destruct (c_index c =? len_handlers c)%Z; discriminate]).
  destruct (Hcall h eq_refl) as [He Hd]. cbn zeta in He, Hd.
  assert (Htail : forall vals c1, within hs a (S j') c1 ->
            let m := (c2 <- defaultMiddlewareReturnHandler marshal c1 vals ;;
                      let c3 := set_index (c_index c2 + 1) c2 in
                      if Written c3 then Done c3
                      else if IsStopped c3 then Done c3 else run marshal fuel c3) in
            ended m /\ forall c', m = Done c' -> within hs a (S j') c').
  { intros vals c1 H1. cbn zeta.
    destruct (middleware_protocol_ends (S:=context) (within hs a (S j'))
                HStop HWrite HHeader marshal c1 vals H1) as [Hm Hmd].
    destruct (defaultMiddlewareReturnHandler marshal c1 vals) as [c2| | |] eqn:E2;
      cbn [bind]; try (split; [exact Hm | discriminate]).
    specialize (Hmd c2 eq_refl). pose proof (within_advance _ _ _ _ Hmd) as H3.
    apply (within_le _ _ j' (S j')) in H3 as H3'; [|lia].
    destruct (Written _); [split; [exact Logic.I | now intros c' [= <-]]|].
    destruct (IsStopped (set_index _ _)); [split; [exact Logic.I | now intros c' [= <-]]|].
    assert (Hlt : j' + action_depth a + 1 <= fuel) by lia.
    destruct (IH j' _ H3 Hlt) as [He3 Hd3].
    split; [exact He3|]. intros c' Ec. apply Hd3 in Ec.
    apply (within_le _ _ j' (S j')); [lia | exact Ec]. }
  split.
  - apply ended_bind; [exact He|]. intros [vals c1] E1.
    apply (Htail vals c1). now apply (Hd vals c1).
  - intros c' E. apply bind_Done in E. destruct E as ([vals c1] & E1 & E2).
    apply (Htail vals c1); [now apply (Hd vals c1) | exact E2].
Qed.

(** With fuel for every handler of the chain, the action and the longest
    chain of the router, the chain of a request comes to an end: it
    returns or panics, and it never waits on fuel. *)
Theorem ServeHTTP_dispatch_ends (s : yawf) (req : Request) (fuel : nat) :
  List.length s.(y_handlers) + action_depth s.(y_action) + 2 <= fuel ->
  ended (ServeHTTP_dispatch marshal fuel s req).
Proof.
  intros Hf. unfold ServeHTTP_dispatch, Next, CreateContext.
  apply (run_ends (y_handlers s) (y_action s) fuel (S (List.length (y_handlers s)))).
  - repeat split. unfold turns_left, len_handlers. simpl. lia.
  - lia.
Qed.
End RunEnds.

(** ** What every run of a chain keeps *)

Section Keeps.
Variables Q Qb : context -> Prop.
Hypothesis Qb_Q : forall c, Qb c -> Q c.
Hypothesis Q_Stop : forall c, Q c -> Qb (Stop c).
Hypothesis Q_record : forall e c,
    is_top_invoke e = false -> is_stop e = false -> Q c -> Q (record e c).
Hypothesis Q_set_rw : forall w c, Q c -> Q (set_rw w c).
Hypothesis Q_top : forall c,
    Qb c -> IsStopped c = false -> Q (record (Invoked Top c.(c_index)) c).
Hypothesis Q_advance : forall c, Q c -> Qb (set_index (c.(c_index) + 1) c).

Section Generic.
Context {S : Type} `{EmbedsLaw S}.

Lemma keeps_ctx_Stop (s : S) : Q (embedded s) -> Q (embedded (ctx_Stop s)).
Proof.
  intros Hs. unfold ctx_Stop. rewrite embedded_with_embedded. now apply Qb_Q, Q_Stop.
Qed.

Lemma keeps_res_Write b (s : S) : Q (embedded s) -> Q (embedded (res_Write b s)).
Proof.
  intros Hs. unfold res_Write. rewrite embedded_with_embedded.
  apply Q_record; try reflexivity. now apply Q_set_rw.
Qed.

Lemma keeps_res_WriteHeader st (s : S) :
  Q (embedded s) -> Q (embedded (res_WriteHeader st s)).
Proof.
  intros Hs. unfold res_WriteHeader. rewrite embedded_with_embedded.
  apply Q_record; try reflexivity. now apply Q_set_rw.
Qed.

Lemma keeps_call (next : S -> result S) :
  (forall s s', Q (embedded s) -> next s = Done s' -> Q (embedded s')) ->
  forall p s vals s',
    Q (embedded s) -> call next p s = Done (vals, s') -> Q (embedded s').
Proof.
  intros Hnext. induction p as [vals0|msg|k IH|k IH|k IH|k IH|b k IH|st k IH];
    intros s vals s' Hs; simpl.
  - now intros [= _ <-].
  - discriminate.
  - destruct (next s) as [s1| | |] eqn:En; simpl; try discriminate.
    apply IH. now apply (Hnext s).
  - apply IH. now apply keeps_ctx_Stop.
  - now apply IH.
  - now apply IH.
  - apply IH. now apply keeps_res_Write.
  - apply IH. now apply keeps_res_WriteHeader.
Qed.

Lemma keeps_Invoke (next : S -> result S) :
  (forall s s', Q (embedded s) -> next s = Done s' -> Q (embedded s')) ->
  forall h s vals s',
    Q (embedded s) -> Invoke next h s = Done (vals, s') -> Q (embedded s').
Proof.
  intros Hnext [|body] s vals s' Hs; simpl; [discriminate|].
  now apply keeps_call.
Qed.

Variable marshal : Value -> option string.

Lemma keeps_router_protocol (s s' : S) vals :
  Q (embedded s) ->
  defaultRouterReturnHandler marshal s vals = Done s' -> Q (embedded s').
Proof.
  intros Hs Hd0.
  destruct (router_protocol_ends (S:=S) (fun x => Q (embedded x))
              keeps_ctx_Stop keeps_res_Write keeps_res_WriteHeader marshal s vals Hs)
    as [_ Hd].
  now apply Hd.
Qed.

Lemma keeps_middleware_protocol (s s' : S) vals :
  Q (embedded s) ->
  defaultMiddlewareReturnHandler marshal s vals = Done s' -> Q (embedded s').
Proof.
  intros Hs Hd0.
  destruct (middleware_protocol_ends (S:=S) (fun x => Q (embedded x))
              keeps_ctx_Stop keeps_res_Write keeps_res_WriteHeader marshal s vals Hs)
    as [_ Hd].
  now apply Hd.
Qed.
End Generic.

Variable marshal : Value -> option string.

Lemma keeps_routeContext_run : forall fuel r r',
  Q r.(Context) ->
  routeContext_run marshal fuel r = Done r' -> Q r'.(Context).
Proof.
  induction fuel as [|fuel IH]; intros r r' Hs; simpl; [discriminate|].
  destruct (r_index r <? Z.of_nat (List.length (r_handlers r)))%Z;
    [|now intros [= <-]].
  destruct (at_index (r_handlers r) (r_index r)) as [h|]; [|discriminate].
  intros E. apply bind_Done in E. destruct E as ([vals r1] & E1 & E2).
  assert (H1 : Q r1.(Context)).
  { apply (keeps_Invoke (S:=routeContext)
             (fun r' => routeContext_run marshal fuel (r_set_index (r_index r' + 1) r')))
      in E1; [exact E1 | |].
    - intros s s' Hs' Hn. apply IH in Hn; [exact Hn | exact Hs'].
    - apply Q_record; auto. }
  destruct (0 <? List.length vals)%nat.
  - apply (keeps_router_protocol (S:=routeContext) marshal _ _ vals) in E2;
      [exact E2 | exact H1].
  - destruct (ctx_Written _); [now injection E2 as <-|].
    apply IH in E2; [exact E2 | exact H1].
Qed.

Hypothesis Q_set_params : forall p c, Q c -> Q (set_params p c).

Lemma keeps_Handle fuel r c c' :
  Q c -> Handle marshal fuel r c = Done c' -> Q c'.
Proof.
  intros Hs. unfold Handle, route_Handle.
  destruct (negb _).
  - destruct (bestRoute _) as [rt|]; [|discriminate].
    intros E. apply bind_Done in E. destruct E as (rc & E1 & [= <-]).
    apply keeps_routeContext_run in E1; [exact E1|]. now apply Q_set_params.
  - intros E. apply bind_Done in E. destruct E as (rc & E1 & [= <-]).
    apply keeps_routeContext_run in E1; [exact E1 | exact Hs].
Qed.

Lemma keeps_run : forall fuel c c',
  Qb c -> run marshal fuel c = Done c' -> Qb c'.
Proof.
  induction fuel as [|fuel IH]; intros c c' Hs; simpl; [discriminate|].
  destruct (IsStopped c) eqn:Est; [now intros [= <-]|].
  intros E. apply bind_Done in E. destruct E as (h & _ & E).
  apply bind_Done in E. destruct E as ([vals c1] & E1 & E).
  apply bind_Done in E. destruct E as (c2 & E2 & E).
  assert (H0 : Q (record (Invoked Top (c_index c)) c)) by now apply Q_top.
  assert (H1 : Q c1).
  { destruct h as [f|rt].
    - apply (keeps_Invoke (S:=context)
               (fun c' => run marshal fuel (set_index (c_index c' + 1) c'))) in E1;
        [exact E1 | | exact H0].
      intros s s' Hs' Hn. apply IH in Hn; [now apply Qb_Q|]. now apply Q_advance.
    - apply bind_Done in E1. destruct E1 as (c0 & E1 & [= _ <-]).
      now apply keeps_Handle in E1. }
  assert (H2 : Q c2).
  { apply (keeps_middleware_protocol (S:=context) marshal c1 c2 vals) in E2;
      [exact E2 | exact H1]. }
  apply Q_advance in H2.
  destruct (Written _); [now injection E as <-|].
  destruct (IsStopped (set_index _ _)); [now injection E as <-|].
  now apply IH in E.
Qed.
End Keeps.

(** ** The order of the invocations *)

Lemma tops_app tr e :
  tops (tr ++ [e]) = (tops tr ++ match e with Invoked Top i => [i] | _ => [] end)%list.
Proof.
  induction tr as [|x tr IH]; simpl.
  - destruct e as [[|] i| | |]; reflexivity.
  - destruct x as [[|] j| | |]; simpl; now rewrite IH.
Qed.

Lemma tops_app_other tr e : is_top_invoke e = false -> tops (tr ++ [e]) = tops tr.
Proof.
  intros He. rewrite tops_app. destruct e as [[|] i| | |]; try discriminate;
    now rewrite app_nil_r.
Qed.

Lemma StronglySorted_snoc (l : list Z) (x : Z) :
  StronglySorted Z.lt l -> (forall y, In y l -> (y < x)%Z) ->
  StronglySorted Z.lt (l ++ [x]).
Proof.
  induction l as [|a l IH]; simpl; intros Hs Hx.
  - constructor; constructor.
  - inversion Hs as [|a' l' Hl Ha]; subst. constructor.
    + apply IH; [exact Hl|]. intros y Hy. apply Hx. now right.
    + rewrite Forall_forall in *. intros y Hy. apply in_app_or in Hy.
      destruct Hy as [Hy|[<-|[]]]; [now apply Ha|]. apply Hx. now left.
Qed.

Lemma in_order_before_in_order c : in_order_before c -> in_order c.
Proof.
  intros (Hs & Hi & Hall). split; [exact Hs|]. split; [lia|].
  intros i Hin. destruct (Hall i Hin). split; [assumption | lia].
Qed.

Lemma in_order_Stop c : in_order c -> in_order_before (Stop c).
Proof.
  intros (Hs & Hi & Hall). unfold in_order_before, Stop, record, len_handlers in *. simpl.
  rewrite tops_app_other by reflexivity.
  split; [exact Hs|]. split; [lia|].
  intros i Hin. destruct (Hall i Hin). split; [assumption | lia].
Qed.

Lemma in_order_record e c :
  is_top_invoke e = false -> is_stop e = false -> in_order c -> in_order (record e c).
Proof.
  intros He _ (Hs & Hi & Hall). unfold in_order, record. simpl.
  rewrite tops_app_other by exact He.
  split; [exact Hs|]. split; [exact Hi | exact Hall].
Qed.

Lemma in_order_top c :
  in_order_before c -> IsStopped c = false ->
  in_order (record (Invoked Top c.(c_index)) c).
Proof.
  intros (Hs & Hi & Hall) Hns. apply negb_false_iff, Z.leb_le in Hns.
  unfold in_order, record. simpl. rewrite tops_app.
  split; [|split; [lia|]].
  - apply StronglySorted_snoc; [exact Hs|]. intros y Hy. now apply Hall.
  - intros i Hin. apply in_app_or in Hin. destruct Hin as [Hin|[<-|[]]].
    + destruct (Hall i Hin). unfold len_handlers in *. simpl. split; [assumption | lia].
    + unfold len_handlers in *. simpl. lia.
Qed.

Lemma in_order_advance c : in_order c -> in_order_before (set_index (c.(c_index) + 1) c).
Proof.
  intros (Hs & Hi & Hall). unfold in_order_before, len_handlers in *. simpl.
  split; [exact Hs|]. split; [lia|].
  intros i Hin. destruct (Hall i Hin). split; [assumption | lia].
Qed.

(** The handlers of the top-level chain and its action are invoked in
    the order of their places, each at most once, whatever the handlers
    do with [Next] and [Stop]. *)
Theorem handlers_run_in_order marshal fuel hs action req c :
  Next marshal fuel (NewContext hs action req) = Done c ->
  StronglySorted Z.lt (tops c.(c_trace))
  /\ NoDup (tops c.(c_trace))
  /\ forall i, In i (tops c.(c_trace)) -> (0 <= i <= Z.of_nat (List.length hs))%Z.
Proof.
  intros E. unfold Next in E.
  assert (Hc : c.(c_handlers) = hs).
  { apply (keeps_run (fun x => x.(c_handlers) = hs) (fun x => x.(c_handlers) = hs)
             (fun x Hx => Hx) (fun x Hx => Hx) (fun e x _ _ Hx => Hx) (fun w x Hx => Hx)
             (fun x Hx _ => Hx) (fun x Hx => Hx) marshal (fun p x Hx => Hx)) in E;
      [exact E | reflexivity]. }
  apply (keeps_run in_order in_order_before in_order_before_in_order in_order_Stop
           in_order_record (fun w c0 H => H) in_order_top in_order_advance marshal
           (fun p c0 H => H)) in E.
  - destruct E as (Hs & _ & Hall). split; [exact Hs|]. split.
    + clear -Hs. induction Hs as [|a l Hl IH Ha]; constructor; [|exact IH].
      intros Hin. rewrite Forall_forall in Ha. apply Ha in Hin. lia.
    + intros i Hin. destruct (Hall i Hin) as [Hb _]. unfold len_handlers in Hb.
      now rewrite Hc in Hb.
  - repeat split; simpl; try lia; try constructor; destruct H.
Qed.

(** ** A chain of handlers that only look *)

Lemma ran_S n : ran (S n) = (ran n ++ [Invoked Top (Z.of_nat n)])%list.
Proof. unfold ran. rewrite seq_S, map_app. reflexivity. Qed.

Lemma call_passive {S : Type} `{Embeds S} (next : S -> result S) p (s : S) :
  passive p -> exists vals, call next p s = Done (vals, s) /\ passes vals = true.
Proof.
  induction 1 as [vals Hp|k Hk IH|k Hk IH]; simpl.
  - now exists vals.
  - apply IH.
  - apply IH.
Qed.

Section PassiveChain.
Variable marshal : Value -> option string.
Variables (hs : list Handler) (a : Callable) (req : Request).
Hypothesis Hpassive : Forall passive_handler hs.

(** The context of the request once the first [k] handlers have run. *)
Let at_place (k : nat) : context :=
  mkContext hs a NewResponseWriter (Z.of_nat k) req None (ran k).

Lemma run_passive_step fuel k :
  k < List.length hs ->
  run marshal (S fuel) (at_place k) = run marshal fuel (at_place (S k)).
Proof.
  intros Hk. cbn [run].
  assert (Hns : IsStopped (at_place k) = false).
  { apply negb_false_iff, Z.leb_le. unfold len_handlers. simpl. lia. }
  rewrite Hns. unfold handler, len_handlers. simpl c_index. simpl c_handlers.
  replace (Z.of_nat k <? Z.of_nat (List.length hs))%Z with true
    by (symmetry; apply Z.ltb_lt; lia).
  unfold at_index. replace (Z.of_nat k <? 0)%Z with false
    by (symmetry; apply Z.ltb_ge; lia).
  rewrite Nat2Z.id.
  destruct (nth_error hs k) as [h|] eqn:Eh;
    [|apply nth_error_None in Eh; lia].
  assert (Hh : passive_handler h).
  { rewrite Forall_forall in Hpassive. apply Hpassive. eapply nth_error_In; eauto. }
  destruct h as [|body]; [destruct Hh|]. cbn [bind Invoke].
  destruct (call_passive (S:=context)
              (fun c' => run marshal fuel (set_index (c_index c' + 1) c')) body
              (record (Invoked Top (Z.of_nat k)) (at_place k)) Hh) as (vals & Ec & Hp).
  rewrite Ec. cbn [bind]. unfold defaultMiddlewareReturnHandler. rewrite Hp. cbn [bind].
  assert (E3 : set_index (c_index (record (Invoked Top (Z.of_nat k)) (at_place k)) + 1)
                         (record (Invoked Top (Z.of_nat k)) (at_place k))
               = at_place (S k)).
  { unfold at_place, set_index, record. simpl. rewrite ran_S. f_equal. lia. }
  rewrite E3.
  assert (Hns' : IsStopped (at_place (S k)) = false).
  { apply negb_false_iff, Z.leb_le. unfold len_handlers. simpl c_index. simpl c_handlers.
    lia. }
  now rewrite Hns'.
Qed.

Lemma run_passive_steps fuel : forall d k,
  k + d = List.length hs ->
  run marshal (d + fuel) (at_place k) = run marshal fuel (at_place (List.length hs)).
Proof.
  induction d as [|d IH]; intros k Hk.
  - simpl. replace k with (List.length hs) by lia. reflexivity.
  - cbn [Nat.add]. rewrite run_passive_step by lia. apply IH. lia.
Qed.

(** When every handler of the chain only looks, the handlers run one after
    the other and the action is reached with the response untouched; an
    action that only looks too ends the request with every place invoked
    once, nothing written and the cursor behind the action. *)
Theorem passive_chain_completes (fuel : nat) :
  Next marshal (List.length hs + fuel) (NewContext hs a req)
  = run marshal fuel (at_place (List.length hs))
  /\ (forall h, a = Plain h -> passive_handler h ->
        Next marshal (List.length hs + S (S fuel)) (NewContext hs a req)
        = Done (mkContext hs a NewResponseWriter (Z.of_nat (List.length hs) + 1) req None
                          (ran (S (List.length hs))))).
Proof.
  assert (H0 : forall f, Next marshal (List.length hs + f) (NewContext hs a req)
                         = run marshal f (at_place (List.length hs))).
  { intros f. unfold Next. apply (run_passive_steps f (List.length hs) 0). lia. }
  split; [apply H0|].
  intros h Ha Hh. rewrite H0. remember (S fuel) as f1 eqn:Ef1. cbn [run].
  assert (Hns : IsStopped (at_place (List.length hs)) = false).
  { apply negb_false_iff, Z.leb_le. unfold len_handlers. simpl. lia. }
  rewrite Hns. unfold handler, len_handlers. simpl c_index. simpl c_handlers.
  rewrite Z.ltb_irrefl, Z.eqb_refl. simpl c_action. rewrite Ha. cbn [bind].
  destruct h as [|body]; [destruct Hh|]. cbn [Invoke].
  destruct (call_passive (S:=context)
              (fun c' => run marshal f1 (set_index (c_index c' + 1) c')) body
              (record (Invoked Top (Z.of_nat (List.length hs))) (at_place (List.length hs)))
              Hh) as (vals & Ec & Hp).
  rewrite Ec. cbn [bind]. unfold defaultMiddlewareReturnHandler. rewrite Hp. cbn [bind].
  unfold Written. simpl.
  replace (IsStopped _) with true.
  - rewrite ran_S, <- Ha. reflexivity.
  - symmetry. apply IsStopped_gt. unfold len_handlers. simpl. lia.
Qed.
End PassiveChain.

Lemma passive_chain_completes_witness :
  Forall passive_handler
         [Func (Return []); Func (GetWritten (fun _ => Return [VBool true]))]
  /\ Next no_json 4
          (NewContext [Func (Return []); Func (GetWritten (fun _ => Return [VBool true]))]
                      (Plain (Func (Return []))) (mkRequest "GET" "/"))
     = Done (mkContext [Func (Return []); Func (GetWritten (fun _ => Return [VBool true]))]
                       (Plain (Func (Return []))) NewResponseWriter 3
                       (mkRequest "GET" "/") None
                       [Invoked Top 0; Invoked Top 1; Invoked Top 2]).
Proof.
  assert (Hp : Forall passive_handler
                 [Func (Return []); Func (GetWritten (fun _ => Return [VBool true]))]).
  { repeat constructor. }
  split; [exact Hp|].
  exact (proj2 (passive_chain_completes no_json _ (Plain (Func (Return [])))
                  (mkRequest "GET" "/") Hp 0)
               (Func (Return [])) eq_refl (passive_Return [] eq_refl)).
Defined.

Lemma handlers_run_in_order_witness :
  exists c,
    Next no_json 4
         (NewContext [Func (CallNext (Return [])); Func (Return [])]
                     (Plain (Func (CallStop (Return [])))) (mkRequest "GET" "/"))
    = Done c
    /\ StronglySorted Z.lt (tops c.(c_trace))
    /\ tops c.(c_trace) = [0; 1; 2]%Z.
Proof.
  eexists. split; [vm_compute; reflexivity|]. split; [|reflexivity].
  refine (proj1 (handlers_run_in_order no_json 4
                   [Func (CallNext (Return [])); Func (Return [])]
                   (Plain (Func (CallStop (Return [])))) (mkRequest "GET" "/") _ _)).
  vm_compute; reflexivity.
Defined.

(** ** The parameters of the path *)


(** ** Registration *)

Lemma fold_left_app_string (gs : list group) (acc : string) :
  fold_left (fun a g => a ++ g.(g_pattern)) gs acc = acc ++ group_prefix gs.
Proof.
  unfold group_prefix. revert acc. induction gs as [|g gs IH]; intros acc; simpl.
  - now rewrite append_nil_r.
  - rewrite IH, (IH (g_pattern g)). now rewrite append_assoc.
Qed.

Lemma fold_left_app_handlers (gs : list group) (acc : list Handler) :
  fold_left (fun a g => (a ++ g.(g_handlers))%list) gs acc
  = (acc ++ group_handlers gs)%list.
Proof.
  unfold group_handlers. revert acc. induction gs as [|g gs IH]; intros acc; simpl.
  - now rewrite app_nil_r.
  - rewrite IH, (IH (g_handlers g)). now rewrite app_assoc.
Qed.

Lemma group_prefix_snoc gs g : group_prefix (gs ++ [g]) = group_prefix gs ++ g.(g_pattern).
Proof. unfold group_prefix. rewrite fold_left_app. reflexivity. Qed.

Lemma group_handlers_snoc gs g :
  group_handlers (gs ++ [g]) = (group_handlers gs ++ g.(g_handlers))%list.
Proof. unfold group_handlers. rewrite fold_left_app. reflexivity. Qed.

Lemma Validate_Done hs : Validate hs = Done tt -> forallb is_func hs = true.
Proof.
  induction hs as [|h hs IH]; simpl; [reflexivity|].
  destruct h; simpl; [discriminate|]. exact IH.
Qed.

Lemma addRoute_fields r meth pat hs r' i :
  addRoute r meth pat hs = Done (r', i) ->
  exists rt,
    r'.(routes) = (r.(routes) ++ [rt])%list
    /\ i = List.length r.(routes)
    /\ nth_error r'.(routes) i = Some rt
    /\ rt.(method) = meth
    /\ rt.(pattern) = group_prefix r.(groups) ++ pat
    /\ rt.(handlers) = (group_handlers r.(groups) ++ hs)%list
    /\ rt.(name) = EmptyString
    /\ forallb is_func rt.(handlers) = true
    /\ r'.(notFounds) = r.(notFounds)
    /\ r'.(groups) = r.(groups).
Proof.
  unfold addRoute.
  assert (Hpat : (if (0 <? List.length (groups r))%nat
                  then (fold_left (fun acc g => acc ++ g_pattern g) (groups r) EmptyString
                          ++ pat,
                        (fold_left (fun acc g => (acc ++ g_handlers g)%list) (groups r) []
                           ++ hs)%list)
                  else (pat, hs))
                 = (group_prefix (groups r) ++ pat,
                    (group_handlers (groups r) ++ hs)%list)).
  { destruct (groups r) as [|g gs]; reflexivity. }
  rewrite Hpat. intros E.
  apply bind_Done in E. destruct E as (rt & E1 & E).
  apply bind_Done in E. destruct E as ([] & E2 & [= <- <-]).
  apply newRoute_fields in E1. destruct E1 as (A & B & C & D & _).
  exists rt. simpl.
  repeat split; try assumption.
  - rewrite nth_error_app2 by lia. now rewrite Nat.sub_diag.
  - now apply Validate_Done.
Qed.

(** A route that [addRoute] accepts is put behind the routes there are,
    under the prefix and behind the handlers of the active groups, without
    a name; the handle is its place; all its handlers are functions; the
    not-found chain and the groups stay as they are. *)
Theorem addRoute_registers r meth pat hs r' i :
  addRoute r meth pat hs = Done (r', i) ->
  exists rt,
    r'.(routes) = (r.(routes) ++ [rt])%list
    /\ i = List.length r.(routes)
    /\ nth_error r'.(routes) i = Some rt
    /\ rt.(method) = meth
    /\ rt.(pattern) = group_prefix r.(groups) ++ pat
    /\ rt.(handlers) = (group_handlers r.(groups) ++ hs)%list
    /\ rt.(name) = EmptyString
    /\ forallb is_func rt.(handlers) = true
    /\ r'.(notFounds) = r.(notFounds)
    /\ r'.(groups) = r.(groups).
Proof.
  exact (addRoute_fields r meth pat hs r' i).
Qed.

Lemma addRoute_registers_witness :
  exists r' i rt,
    addRoute (mkRouter [] [http_NotFound]
                       [mkGroup "/api" [Func (Return [])]; mkGroup "/v1" []])
             "GET" "/users/:id" [Func (Return [VString "user"])] = Done (r', i)
    /\ nth_error r'.(routes) i = Some rt
    /\ rt.(pattern) = "/api/v1/users/:id"
    /\ rt.(handlers) = [Func (Return []); Func (Return [VString "user"])].
Proof.
  destruct (addRoute (mkRouter [] [http_NotFound]
                               [mkGroup "/api" [Func (Return [])]; mkGroup "/v1" []])
                     "GET" "/users/:id" [Func (Return [VString "user"])])
    as [[r' i]| | |] eqn:E; try (vm_compute in E; discriminate).
  destruct (addRoute_registers _ _ _ _ _ _ E) as (rt & _ & _ & Hn & _ & Hp & Hh & _).
  exists r', i, rt. repeat split; assumption.
Defined.

Lemma pop_group_snoc (r1 : router) gs g :
  r1.(groups) = (gs ++ [g])%list ->
  match r1.(groups) with
  | [] => Panic "slice bounds out of range"
  | _ :: _ => Done (mkRouter r1.(routes) r1.(notFounds) (removelast r1.(groups)))
  end = Done (mkRouter r1.(routes) r1.(notFounds) gs).
Proof.
  intros E. rewrite E, removelast_last. now destruct gs.
Qed.

(** [Group] leaves the stack of groups as it found it whenever its
    callback does, and then so does a call of [Group] used as a callback:
    groups nest. *)
Theorem Group_restores_groups r pat fn h r' :
  (forall x y, fn x = Done y -> y.(groups) = x.(groups)) ->
  Group r pat fn h = Done r' ->
  r'.(groups) = r.(groups)
  /\ forall pat2 h2 x y,
       Group x pat2 (fun z => Group z pat fn h) h2 = Done y -> y.(groups) = x.(groups).
Proof.
  intros Hfn.
  assert (H1 : forall x y, Group x pat fn h = Done y -> y.(groups) = x.(groups)).
  { intros x y E. unfold Group in E. apply bind_Done in E. destruct E as (r1 & E1 & E2).
    apply Hfn in E1. simpl in E1. rewrite (pop_group_snoc r1 _ _ E1) in E2.
    now injection E2 as <-. }
  intros E. split; [now apply H1|].
  intros pat2 h2 x y E2. unfold Group in E2 at 1.
  apply bind_Done in E2. destruct E2 as (r1 & E1 & E3).
  apply H1 in E1. simpl in E1. rewrite (pop_group_snoc r1 _ _ E1) in E3.
  now injection E3 as <-.
Qed.

Lemma Group_restores_groups_witness :
  exists r',
    Group NewRouter "/api"
          (fun x => res <- addRoute x "GET" "/users" [] ;; Done (fst res))
          [Func (Return [])] = Done r'
    /\ r'.(groups) = [].
Proof.
  destruct (Group NewRouter "/api"
                  (fun x => res <- addRoute x "GET" "/users" [] ;; Done (fst res))
                  [Func (Return [])]) as [r'| | |] eqn:E;
    try (vm_compute in E; discriminate).
  exists r'. split; [reflexivity|].
  refine (proj1 (Group_restores_groups NewRouter "/api" _ [Func (Return [])] r' _ E)).
  intros x y Ex. apply bind_Done in Ex. destruct Ex as ([r1 i] & E1 & [= <-]).
  apply addRoute_fields in E1. destruct E1 as (rt & E1). apply E1.
Defined.

(** A route registered inside a group carries the prefixes of all the
    groups around it followed by its own pattern, and runs their handlers
    before its own. *)
Theorem Group_prefixes_route r prefix shared meth pat hs r' :
  Group r prefix (fun x => res <- addRoute x meth pat hs ;; Done (fst res)) shared
  = Done r' ->
  exists rt,
    r'.(routes) = (r.(routes) ++ [rt])%list
    /\ rt.(pattern) = group_prefix r.(groups) ++ prefix ++ pat
    /\ rt.(handlers) = (group_handlers r.(groups) ++ shared ++ hs)%list
    /\ r'.(groups) = r.(groups).
Proof.
  intros E. unfold Group in E. apply bind_Done in E. destruct E as (r1 & E1 & E2).
  apply bind_Done in E1. destruct E1 as ([r2 i] & E1 & [= <-]).
  apply addRoute_fields in E1.
  destruct E1 as (rt & Hr & _ & _ & _ & Hp & Hh & _ & _ & _ & Hg).
  cbn [groups routes notFounds fst] in *.
  rewrite (pop_group_snoc r2 _ _ Hg) in E2. injection E2 as <-. exists rt.
  rewrite group_prefix_snoc in Hp. rewrite group_handlers_snoc in Hh.
  cbn [g_pattern g_handlers routes groups] in *.
  repeat split; [exact Hr | now rewrite Hp, append_assoc | now rewrite Hh, <- app_assoc].
Qed.

Lemma Group_prefixes_route_witness :
  exists r' rt,
    Group NewRouter "/api"
          (fun x => res <- addRoute x "GET" "/users" [Func (Return [VString "all"])] ;;
                    Done (fst res))
          [Func (Return [])] = Done r'
    /\ r'.(routes) = [rt]
    /\ rt.(pattern) = "/api/users"
    /\ rt.(handlers) = [Func (Return []); Func (Return [VString "all"])].
Proof.
  destruct (Group NewRouter "/api"
                  (fun x => res <- addRoute x "GET" "/users" [Func (Return [VString "all"])] ;;
                            Done (fst res))
                  [Func (Return [])]) as [r'| | |] eqn:E;
    try (vm_compute in E; discriminate).
  destruct (Group_prefixes_route _ _ _ _ _ _ _ E) as (rt & Hr & Hp & Hh & _).
  exists r', rt. repeat split; assumption.
Defined.

(** ** Finding routes *)

Lemma hasMethod_In methods m : hasMethod methods m = true <-> In m methods.
Proof.
  unfold hasMethod. rewrite existsb_exists. split.
  - intros (x & Hin & Hx). apply String.eqb_eq in Hx. now subst.
  - intros Hin. exists m. split; [exact Hin | apply String.eqb_refl].
Qed.

Lemma MethodsFor_fold path : forall rts acc,
  NoDup acc ->
  let res := fold_left
               (fun methods rt =>
                  let matches := Regexp.FindStringSubmatch rt.(regex) path in
                  if (0 <? List.length matches)%nat
                     && String.eqb (nth 0 matches EmptyString) path
                     && negb (hasMethod methods rt.(method))
                  then (methods ++ [rt.(method)])%list else methods)
               rts acc in
  NoDup res
  /\ forall m, In m res <->
               In m acc \/ exists rt, In rt rts /\ rt.(method) = m
                                      /\ path_matches rt path = true.
Proof.
  induction rts as [|rt rts IH]; intros acc Hnd; cbn zeta; simpl.
  - split; [exact Hnd|]. intros m. split; [now left|]. intros [H|(rt & [] & _)]. exact H.
  - fold (path_matches rt path).
    destruct (path_matches rt path) eqn:Epm; simpl.
    + destruct (hasMethod acc (method rt)) eqn:Eh; simpl.
      * destruct (IH acc Hnd) as [Hn Hi]. split; [exact Hn|].
        intros m. rewrite Hi. split.
        -- intros [H|(x & Hx & Hm & Hp)]; [now left|]. right. exists x. tauto.
        -- intros [H|(x & [<-|Hx] & Hm & Hp)]; [now left| |].
           ++ left. subst m. now apply hasMethod_In.
           ++ right. exists x. tauto.
      * assert (Hnd' : NoDup (acc ++ [method rt])).
        { apply NoDup_app; [exact Hnd | repeat constructor; intros [] |].
          intros x Hx [<-|[]]. apply hasMethod_In in Hx. congruence. }
        destruct (IH _ Hnd') as [Hn Hi]. split; [exact Hn|].
        intros m. rewrite Hi. rewrite in_app_iff. simpl. split.
        -- intros [[H|[H|[]]]|(x & Hx & Hm & Hp)].
           ++ now left.
           ++ right. exists rt. tauto.
           ++ right. exists x. tauto.
        -- intros [H|(x & [<-|Hx] & Hm & Hp)].
           ++ now left; left.
           ++ left. right. now left.
           ++ right. exists x. tauto.
    + destruct (IH acc Hnd) as [Hn Hi]. split; [exact Hn|].
      intros m. rewrite Hi. split.
      * intros [H|(x & Hx & Hm & Hp)]; [now left|]. right. exists x. tauto.
      * intros [H|(x & [<-|Hx] & Hm & Hp)]; [now left| congruence |].
        right. exists x. tauto.
Qed.

(** [MethodsFor] lists each method once, and a method is listed exactly
    when some route of that method has a pattern that matches the whole
    path. *)
Theorem MethodsFor_lists_methods r path :
  NoDup (MethodsFor r path)
  /\ forall m, In m (MethodsFor r path) <->
               exists rt, In rt r.(routes) /\ rt.(method) = m
                          /\ path_matches rt path = true.
Proof.
  destruct (MethodsFor_fold path r.(routes) [] (NoDup_nil _)) as [Hn Hi].
  split; [exact Hn|]. intros m. unfold MethodsFor. rewrite Hi. split.
  - intros [[]|H]. exact H.
  - intros H. now right.
Qed.

Lemma find_by_name_spec n : forall rts,
  match find_by_name rts n with
  | Some rt =>
      exists l1 l2, rts = (l1 ++ rt :: l2)%list /\ rt.(name) = n
                    /\ forall x, In x l1 -> x.(name) <> n
  | None => forall x, In x rts -> x.(name) <> n
  end.
Proof.
  induction rts as [|rt rts IH]; simpl; [intros x []|].
  destruct (String.eqb_spec (name rt) n) as [E|E].
  - exists [], rts. repeat split; [exact E | intros x []].
  - destruct (find_by_name rts n) as [rt0|].
    + destruct IH as (l1 & l2 & -> & Hn & Hl). exists (rt :: l1), l2.
      repeat split; [exact Hn|]. intros x [<-|Hx]; [exact E | now apply Hl].
    + intros x [<-|Hx]; [exact E | now apply IH].
Qed.

Lemma url_args_panic : forall params acc msg,
  url_args params acc = Panic msg ->
  msg = "Arguments passed to URLFor must be integers or strings".
Proof.
  induction params as [|p params IH]; intros acc msg; simpl; [discriminate|].
  destruct p; try apply IH. now intros [= <-].
Qed.

(** [URLFor] renders the first route that carries the name, whatever routes
    of the same name come later; it panics with "route not found" exactly
    when no route carries the name; and a route that was never named
    carries the empty name. *)
Theorem URLFor_first_named_route r n params :
  (forall rt, findRoute r n = Some rt ->
     (exists l1 l2, r.(routes) = (l1 ++ rt :: l2)%list /\ rt.(name) = n
                    /\ forall x, In x l1 -> x.(name) <> n)
     /\ URLFor r n params = (args <- url_args params [] ;; Done (URLWith rt args)))
  /\ (URLFor r n params = Panic "route not found" <->
      forall rt, In rt r.(routes) -> rt.(name) <> n)
  /\ (forall r1 i meth pat hs,
         addRoute r meth pat hs = Done (r1, i) ->
         (forall rt, In rt r.(routes) -> rt.(name) <> EmptyString) ->
         URLFor r1 EmptyString [] = Done (group_prefix r.(groups) ++ pat)).
Proof.
  pose proof (find_by_name_spec n r.(routes)) as Hf.
  unfold URLFor, findRoute. split; [|split].
  - intros rt E. rewrite E in *. split; [exact Hf | reflexivity].
  - destruct (find_by_name (routes r) n) as [rt|].
    + split.
      * destruct (url_args params []) as [args|msg| |] eqn:Ea; simpl; try discriminate.
        apply url_args_panic in Ea. subst msg. discriminate.
      * intros Hall. destruct Hf as (l1 & l2 & E & Hn & _).
        elim (Hall rt); [|exact Hn]. rewrite E. apply in_or_app. right. now left.
    + split; [intros _; exact Hf | reflexivity].
  - intros r1 i meth pat hs E Hall.
    apply addRoute_fields in E.
    destruct E as (rt & Hr & _ & _ & _ & Hp & _ & Hn & _).
    pose proof (find_by_name_spec EmptyString r1.(routes)) as Hf1.
    destruct (find_by_name (routes r1) EmptyString) as [rt1|].
    + destruct Hf1 as (l1 & l2 & E1 & Hn1 & Hl1). simpl.
      assert (rt1 = rt).
      { rewrite Hr in E1.
        assert (Hin : In rt1 (routes r ++ [rt])) by
            (rewrite E1; apply in_or_app; right; now left).
        apply in_app_or in Hin. destruct Hin as [Hin|[<-|[]]]; [|reflexivity].
        elim (Hall rt1 Hin). exact Hn1. }
      subst rt1. unfold URLWith. simpl. now rewrite Hp.
    + elim (Hf1 rt); [|exact Hn]. rewrite Hr. apply in_or_app. right. now left.
Qed.

Lemma set_name_at_snoc rts rt n :
  set_name_at (rts ++ [rt]) (List.length rts) n = (rts ++ [SetName rt n])%list.
Proof. induction rts as [|x rts IH]; simpl; [reflexivity | now rewrite IH]. Qed.

Lemma find_by_name_skip n : forall rts rest,
  (forall x, In x rts -> x.(name) <> n) ->
  find_by_name (rts ++ rest) n = find_by_name rest n.
Proof.
  induction rts as [|x rts IH]; intros rest Hall; simpl; [reflexivity|].
  destruct (String.eqb_spec (name x) n) as [E|E].
  - elim (Hall x); [now left | exact E].
  - apply IH. intros y Hy. apply Hall. now right.
Qed.

(** A route that is registered and then named is found under its name,
    provided no earlier route carries it: [URLFor] without arguments then
    renders its pattern, prefix of the groups included. *)
Theorem named_route_is_found r meth pat hs r1 i n :
  addRoute r meth pat hs = Done (r1, i) ->
  (forall rt, In rt r.(routes) -> rt.(name) <> n) ->
  (exists rt, findRoute (router_SetName r1 i n) n = Some rt
              /\ rt.(name) = n /\ rt.(method) = meth
              /\ rt.(pattern) = group_prefix r.(groups) ++ pat)
  /\ URLFor (router_SetName r1 i n) n [] = Done (group_prefix r.(groups) ++ pat).
Proof.
  intros E Hall. apply addRoute_fields in E.
  destruct E as (rt & Hr & -> & _ & Hm & Hp & _).
  assert (Hf : findRoute (router_SetName r1 (List.length (routes r)) n) n
               = Some (SetName rt n)).
  { unfold findRoute, router_SetName. simpl. rewrite Hr, set_name_at_snoc.
    rewrite find_by_name_skip by exact Hall. simpl. now rewrite String.eqb_refl. }
  split.
  - exists (SetName rt n). now repeat split.
  - unfold URLFor. rewrite Hf. simpl. unfold URLWith. simpl. now rewrite Hp.
Qed.

Lemma named_route_is_found_witness :
  exists r1 i,
    addRoute NewRouter "GET" "/users/:id" [] = Done (r1, i)
    /\ URLFor (router_SetName r1 i "user") "user" [] = Done "/users/:id".
Proof.
  destruct (addRoute NewRouter "GET" "/users/:id" []) as [[r1 i]| | |] eqn:E;
    try (vm_compute in E; discriminate).
  exists r1, i. split; [reflexivity|].
  refine (proj2 (named_route_is_found NewRouter "GET" "/users/:id" [] r1 i "user" E _)).
  intros rt [].
Defined.

(** ** What the protocols write *)

Lemma writes_snoc tr e : writes (tr ++ [e]) = (writes tr ++ (if is_write e then [e] else []))%list.
Proof. unfold writes. rewrite filter_app. simpl. now destruct (is_write e). Qed.

Lemma write_value_alike marshal v (r : routeContext) (c : context) :
  writes r.(Context).(c_trace) = writes c.(c_trace) ->
  alike (write_value marshal v r) (write_value marshal v c).
Proof.
  intros Htr.
  assert (Hw : forall b, alike (Done (res_Write b r)) (Done (res_Write b c))).
  { intros b. simpl. rewrite !writes_snoc. now rewrite Htr. }
  unfold write_value.
  destruct (isByteSlice v); [apply Hw|].
  destruct (isString v); [apply Hw|].
  destruct v; try reflexivity; (destruct (marshal _); [apply Hw | reflexivity]).
Qed.

(** Both protocols read the values alike: on one request they make the
    same calls on the response writer, or panic alike; and neither looks
    at a value behind the second. *)
Theorem protocols_write_alike marshal (r : routeContext) (vals : list Value) :
  alike (defaultRouterReturnHandler marshal r vals)
        (defaultMiddlewareReturnHandler marshal r.(Context) vals)
  /\ (forall v0 v1 rest,
         defaultRouterReturnHandler marshal r (v0 :: v1 :: rest)
         = defaultRouterReturnHandler marshal r [v0; v1]
         /\ defaultMiddlewareReturnHandler marshal r.(Context) (v0 :: v1 :: rest)
            = defaultMiddlewareReturnHandler marshal r.(Context) [v0; v1]).
Proof.
  split.
  - unfold defaultRouterReturnHandler, defaultMiddlewareReturnHandler.
    destruct (passes vals); [reflexivity|].
    destruct (refuses vals); [reflexivity|].
    unfold status_and_body.
    destruct (1 <? List.length vals)%nat;
      [|destruct (0 <? List.length vals)%nat];
      apply write_value_alike; simpl; rewrite !writes_snoc; simpl;
      now rewrite ?app_nil_r.
  - intros v0 v1 rest. split; reflexivity.
Qed.

(** A handler that returns a nil pointer or a nil interface as the body,
    alone or behind a first value, makes both protocols panic: the value
    has nothing to dereference to. *)
Theorem nil_body_panics {S : Type} `{Embeds S} marshal (s : S) (v : Value) :
  deref v = VInvalid ->
  defaultRouterReturnHandler marshal s [v]
  = Panic "reflect: call of reflect.Value.Interface on zero Value"
  /\ defaultMiddlewareReturnHandler marshal s [v]
     = Panic "reflect: call of reflect.Value.Interface on zero Value"
  /\ forall v0 rest,
       v0 <> VBool true ->
       defaultRouterReturnHandler marshal s (v0 :: v :: rest)
       = Panic "reflect: call of reflect.Value.Interface on zero Value"
       /\ defaultMiddlewareReturnHandler marshal s (v0 :: v :: rest)
          = Panic "reflect: call of reflect.Value.Interface on zero Value".
Proof.
  intros Hv.
  assert (Hnb : v <> VBool true /\ v <> VBool false).
  { split; intros ->; discriminate. }
  assert (Hp : passes [v] = false) by (apply passes_cons, Hnb).
  assert (Hr : refuses [v] = false).
  { destruct (refuses [v]) eqn:E; [|reflexivity]. apply refuses_iff in E.
    injection E as ->. now elim (proj2 Hnb). }
  split; [|split].
  - unfold defaultRouterReturnHandler. rewrite Hp, Hr. simpl. now rewrite Hv.
  - unfold defaultMiddlewareReturnHandler. rewrite Hp, Hr. simpl. now rewrite Hv.
  - intros v0 rest Hv0.
    unfold defaultRouterReturnHandler, defaultMiddlewareReturnHandler.
    rewrite (passes_cons v0 (v :: rest) Hv0).
    replace (refuses (v0 :: v :: rest)) with false by reflexivity.
    simpl. now rewrite Hv.
Qed.

Lemma nil_body_panics_witness :
  deref VNilPtr = VInvalid
  /\ defaultRouterReturnHandler no_json
       (mkRouteContext (NewContext [] (RouterHandle NewRouter) (mkRequest "GET" "/")) 1 [])
       [VInt 200; VNilPtr]
     = Panic "reflect: call of reflect.Value.Interface on zero Value".
Proof.
  split; [reflexivity|].
  refine (proj1 (proj2 (proj2 (nil_body_panics no_json _ VNilPtr eq_refl)) (VInt 200) [] _)).
  discriminate.
Defined.

(** A text returned alone is written as the body, with no call for a
    status; a text returned behind a first value is written after a call for
    the status that value gives: the integer, or 200 when the value is no
    integer.  A pointer to a text counts as the text.  The protocol of the
    routes does not stop the context on either. *)
Theorem protocol_status_and_body {S : Type} `{EmbedsLaw S} marshal (s : S)
        (v0 v1 : Value) (rest : list Value) (body : string) :
  deref v1 = VString body ->
  (exists s1,
      defaultRouterReturnHandler marshal s [v1] = Done s1
      /\ (embedded s1).(c_trace) = ((embedded s).(c_trace) ++ [Wrote body])%list
      /\ (embedded s1).(c_index) = (embedded s).(c_index))
  /\ (v0 <> VBool true ->
      exists s2,
        defaultRouterReturnHandler marshal s (v0 :: v1 :: rest) = Done s2
        /\ (embedded s2).(c_trace)
           = ((embedded s).(c_trace) ++ [WroteHeader (status_of v0); Wrote body])%list
        /\ (embedded s2).(c_index) = (embedded s).(c_index)).
Proof.
  intros Hv.
  assert (Hnb : v1 <> VBool true /\ v1 <> VBool false).
  { split; intros ->; discriminate. }
  split.
  - unfold defaultRouterReturnHandler. rewrite (passes_cons v1 [] (proj1 Hnb)).
    assert (Hr : refuses [v1] = false).
    { destruct (refuses [v1]) eqn:Er; [|reflexivity]. apply refuses_iff in Er.
      injection Er as ->. now elim (proj2 Hnb). }
    rewrite Hr. simpl. rewrite Hv. simpl. eexists. split; [reflexivity|].
    unfold res_Write. rewrite embedded_with_embedded. split; reflexivity.
  - intros Hv0. unfold defaultRouterReturnHandler.
    rewrite (passes_cons v0 (v1 :: rest) Hv0).
    replace (refuses (v0 :: v1 :: rest)) with false by reflexivity.
    simpl. rewrite Hv. simpl. eexists. split; [reflexivity|].
    unfold res_Write, res_WriteHeader. rewrite !embedded_with_embedded.
    simpl. rewrite <- app_assoc. simpl. split; [|reflexivity].
    do 3 f_equal. now destruct v0.
Qed.

Lemma protocol_status_and_body_witness :
  deref (VPtr (VString "created")) = VString "created"
  /\ exists c,
      defaultRouterReturnHandler no_json
        (NewContext [] (RouterHandle NewRouter) (mkRequest "GET" "/"))
        [VInt 201; VPtr (VString "created")] = Done c
      /\ c.(c_trace) = [WroteHeader 201; Wrote "created"].
Proof.
  split; [reflexivity|].
  destruct (proj2 (protocol_status_and_body (S:=context) no_json
                     (NewContext [] (RouterHandle NewRouter) (mkRequest "GET" "/"))
                     (VInt 201) (VPtr (VString "created")) [] "created" eq_refl))
    as (c & E & Htr & _); [discriminate|].
  exists c. split; [exact E | exact Htr].
Defined.

(** ** Misses *)

Lemma scan_all_NoMatch meth path rts :
  (forall rt, In rt rts -> fst (Match rt meth path) = NoMatch) ->
  bestMatch (scan rts meth path (mkBest NoMatch None None 0)) = NoMatch.
Proof.
  intros Hall.
  destruct (scan_from meth path rts (mkBest NoMatch None None 0))
    as [(E1 & _)|(l1 & rt & l2 & E & _ & _ & _ & Hb & _)]; [exact E1|].
  rewrite Hall in Hb; [discriminate|]. rewrite E. apply in_or_app. right. now left.
Qed.

(** With the not-found chain a router starts with, a request that no route
    matches is answered by [http.NotFound] alone: one call for the status
    404 and one write of its body; the cursor of the top-level context
    stays where it is. *)
Theorem miss_writes_404 marshal fuel r c :
  r.(notFounds) = [http_NotFound] ->
  (forall rt, In rt r.(routes) ->
              fst (Match rt c.(c_request).(Method) c.(c_request).(Path)) = NoMatch) ->
  exists c',
    Handle marshal (S fuel) r c = Done c'
    /\ c'.(c_index) = c.(c_index)
    /\ c'.(c_trace) = (c.(c_trace)
                       ++ [Invoked InRoute 0; WroteHeader 404; Wrote not_found_body])%list.
Proof.
  intros Hnf Hall. unfold Handle.
  rewrite (scan_all_NoMatch _ _ _ Hall). simpl negb. cbv iota.
  rewrite Hnf. eexists. split; [reflexivity|]. simpl.
  repeat split. now rewrite <- !app_assoc.
Qed.

Lemma miss_writes_404_witness :
  exists c',
    Handle no_json 1 NewRouter (NewContext [] (RouterHandle NewRouter) (mkRequest "GET" "/missing"))
    = Done c'
    /\ c'.(c_trace) = [Invoked InRoute 0; WroteHeader 404; Wrote not_found_body].
Proof.
  destruct (miss_writes_404 no_json 0 NewRouter
              (NewContext [] (RouterHandle NewRouter) (mkRequest "GET" "/missing"))
              eq_refl (fun rt (H : In rt []) => match H with end))
    as (c' & E & _ & Htr).
  exists c'. split; [exact E | exact Htr].
Defined.

(** [NotFound] takes its handlers as they come: when the first of them is
    no function, a request that no route matches panics. *)
Theorem miss_with_non_function_panics marshal fuel r hs c :
  (forall rt, In rt r.(routes) ->
              fst (Match rt c.(c_request).(Method) c.(c_request).(Path)) = NoMatch) ->
  exists msg, Handle marshal (S fuel) (NotFound r (NotFunc :: hs)) c = Panic msg.
Proof.
  intros Hall. unfold Handle, NotFound. simpl routes. simpl notFounds.
  rewrite (scan_all_NoMatch _ _ _ Hall). simpl. eauto.
Qed.

Lemma miss_with_non_function_panics_witness :
  exists msg,
    Handle no_json 1 (NotFound NewRouter [NotFunc])
           (NewContext [] (RouterHandle NewRouter) (mkRequest "GET" "/missing"))
    = Panic msg.
Proof.
  exact (miss_with_non_function_panics no_json 0 NewRouter []
           (NewContext [] (RouterHandle NewRouter) (mkRequest "GET" "/missing"))
           (fun rt (H : In rt []) => match H with end)).
Defined.

(** ** The parameters a match binds *)

Lemma params_get_set_same k v m : params_get k (params_set k v m) = Some v.
Proof.
  induction m as [|[k' v'] m IH]; simpl.
  - now rewrite String.eqb_refl.
  - destruct (String.eqb k k') eqn:E; simpl.
    + now rewrite String.eqb_refl.
    + now rewrite E.
Qed.

Lemma params_get_set_other k k' v m :
  k' <> k -> params_get k' (params_set k v m) = params_get k' m.
Proof.
  intros Hne. induction m as [|[k0 v0] m IH]; simpl.
  - apply String.eqb_neq in Hne. now rewrite Hne.
  - destruct (String.eqb k k0) eqn:E; simpl.
    + apply String.eqb_eq in E. subst k0. apply String.eqb_neq in Hne. now rewrite Hne.
    + destruct (String.eqb k' k0); [reflexivity | exact IH].
Qed.

Lemma bind_params_keys k : forall names matches acc,
  List.length names <= List.length matches ->
  (exists v, params_get k (bind_params names matches acc) = Some v) <->
  (exists v, params_get k acc = Some v) \/ (In k names /\ k <> EmptyString).
Proof.
  induction names as [|n names IH]; intros matches acc Hlen; simpl.
  - split; [now left | intros [H|[[] _]]; exact H].
  - destruct matches as [|m matches]; [simpl in Hlen; lia|]. simpl in Hlen.
    rewrite IH by lia.
    destruct n as [|a n]; simpl.
    + split.
      * intros [H|[Hin Hk]]; [now left | right; tauto].
      * intros [H|[[Hk|Hin] Hne]]; [now left | congruence | right; tauto].
    + destruct (string_dec k (String a n)) as [->|Hne].
      * rewrite params_get_set_same. split.
        -- intros _. right. split; [now left | discriminate].
        -- intros _. left. eauto.
      * rewrite (params_get_set_other _ _ _ _ Hne). split.
        -- intros [H|[Hin Hk]]; [now left | right; tauto].
        -- intros [H|[[Hk|Hin] Hk']]; [now left | congruence | right; tauto].
Qed.

(** The parameters of a match are the named groups of the expression,
    each of them bound and nothing else. *)
Theorem Match_binds_named_groups (r : route) meth path rank ps :
  Match r meth path = (rank, Some ps) ->
  forall k,
    (exists v, params_get k ps = Some v) <->
    (In k (Regexp.SubexpNames r.(regex)) /\ k <> EmptyString).
Proof.
  unfold Match.
  destruct (RouteMatch_eqb (MatchMethod r meth) NoMatch); [discriminate|].
  match goal with |- context [if ?t then _ else _] => destruct t eqn:Et end;
    [|discriminate].
  intros [= _ <-] k.
  rewrite bind_params_keys.
  - split; [intros [[v Hv]|H]; [discriminate | exact H] | intros H; now right].
  - unfold Regexp.FindStringSubmatch, Regexp.SubexpNames in *.
    destruct (Regexp.find _ _) as [[[[pre mt] rest] cs]|]; [|discriminate].
    simpl. rewrite length_map, length_seq. lia.
Qed.

Lemma Match_binds_named_groups_witness :
  exists r ps,
    newRoute "GET" "/users/:id/files/**" [] = Done r
    /\ Match r "GET" "/users/7/files/a/b.txt" = (ExactMatch, Some ps)
    /\ (exists v, params_get "id" ps = Some v)
    /\ (exists v, params_get "_1" ps = Some v).
Proof.
  destruct (newRoute "GET" "/users/:id/files/**" []) as [r| | |] eqn:E;
    try (vm_compute in E; discriminate).
  destruct (Match r "GET" "/users/7/files/a/b.txt") as [rank [ps|]] eqn:Em;
    try (injection E as <-; vm_compute in Em; discriminate).
  assert (rank = ExactMatch) by (injection E as <-; vm_compute in Em; congruence).
  subst rank. exists r, ps. split; [reflexivity|]. split; [exact Em|].
  pose proof (Match_binds_named_groups r "GET" "/users/7/files/a/b.txt" ExactMatch ps Em)
    as Hk.
  split; apply Hk; injection E as <-; vm_compute; split;
    try discriminate; tauto.
Defined.

(** ** Witnesses of the runs *)

Lemma top_level_quiet_after_Stop_witness :
  exists c,
    Next no_json 3
         (NewContext [Func (CallStop (CallNext (Return []))); Func (Write "late" (Return []))]
                     (Plain (Func (Return []))) (mkRequest "GET" "/"))
    = Done c
    /\ c.(c_trace) = [Invoked Top 0; CalledStop]
    /\ forall t1 t2 i,
         c.(c_trace) = (t1 ++ CalledStop :: t2)%list -> ~ In (Invoked Top i) t2.
Proof.
  eexists. split; [vm_compute; reflexivity|]. split; [reflexivity|].
  apply (top_level_quiet_after_Stop no_json 3
           [Func (CallStop (CallNext (Return []))); Func (Write "late" (Return []))]
           (Plain (Func (Return []))) (mkRequest "GET" "/")).
  vm_compute; reflexivity.
Defined.

Lemma ServeHTTP_dispatch_ends_witness :
  List.length (y_handlers (New_yawf NewRouter))
  + action_depth (y_action (New_yawf NewRouter)) + 2 <= 3
  /\ ended (ServeHTTP_dispatch no_json 3 (New_yawf NewRouter) (mkRequest "GET" "/")).
Proof.
  assert (H : List.length (y_handlers (New_yawf NewRouter))
              + action_depth (y_action (New_yawf NewRouter)) + 2 <= 3)
    by (vm_compute; lia).
  split; [exact H|].
  exact (ServeHTTP_dispatch_ends no_json (New_yawf NewRouter) (mkRequest "GET" "/") 3 H).
Defined.


(** ** How the chain ends *)

Lemma run_ends_written_or_stopped marshal : forall fuel c c',
  run marshal fuel c = Done c' -> IsStopped c' = true \/ Written c' = true.
Proof.
  induction fuel as [|fuel IH]; intros c c' E; [discriminate|].
  remember (S fuel) as f1. rewrite Heqf1 in E. cbn [run] in E.
  destruct (IsStopped c) eqn:Es; [injection E as <-; now left|].
  apply bind_Done in E. destruct E as (h & _ & E).
  apply bind_Done in E. destruct E as ([vals c1] & _ & E).
  apply bind_Done in E. destruct E as (c2 & _ & E).
  cbv zeta in E.
  destruct (Written (set_index (c_index c2 + 1) c2)) eqn:Ew;
    [injection E as <-; now right|].
  destruct (IsStopped (set_index (c_index c2 + 1) c2)) eqn:Es';
    [injection E as <-; now left|].
  exact (IH _ _ E).
Qed.

(** When [Next] returns on a top-level context, the request is over for
    the chain: the response is written, or the context is stopped (by
    [Stop], or by the cursor running past the action). *)
Theorem chain_returns_written_or_stopped marshal fuel (c c' : context) :
  Next marshal fuel c = Done c' ->
  IsStopped c' = true \/ Written c' = true.
Proof. unfold Next. apply run_ends_written_or_stopped. Qed.

Lemma chain_returns_written_or_stopped_witness :
  exists c',
    Next no_json 3 (NewContext [Func (Return [])] (Plain (Func (Return [])))
                               (mkRequest "GET" "/")) = Done c'
    /\ (IsStopped c' = true \/ Written c' = true).
Proof.
  eexists. split; [vm_compute; reflexivity|].
  apply (chain_returns_written_or_stopped no_json 3
           (NewContext [Func (Return [])] (Plain (Func (Return []))) (mkRequest "GET" "/"))).
  vm_compute; reflexivity.
Defined.

(** ** The end of a request and [Stop] *)

(** A server whose counter is at 0 or below (and above the least [int32])
    ends a request by counting down and nothing more: it sends no signal
    of closure and sleeps no delay, stopping or not. *)
Theorem finish_below_zero_never_signals (s : yawf) :
  (- 2 ^ 31 < s.(activeCount) <= 0)%Z ->
  exists s',
    ServeHTTP_finish s = Done s'
    /\ s'.(activeCount) = (s.(activeCount) - 1)%Z
    /\ s'.(cClose) = s.(cClose)
    /\ s'.(slept) = s.(slept)
    /\ s'.(isStopping) = s.(isStopping)
    /\ s'.(listener) = s.(listener).
Proof.
  intros Hc. unfold ServeHTTP_finish. cbv zeta. cbn [isStopping activeCount].
  assert (Hw : wrap32 (activeCount s + -1) = (activeCount s - 1)%Z).
  { unfold wrap32.
    replace ((activeCount s + -1 + 2 ^ 31) mod 2 ^ 32)%Z
      with (activeCount s + -1 + 2 ^ 31)%Z; [lia|].
    symmetry. apply Z.mod_small. lia. }
  rewrite Hw.
  assert (Hz : (activeCount s - 1 =? 0)%Z = false) by (apply Z.eqb_neq; lia).
  rewrite Hz, andb_false_r. eexists. split; [reflexivity|]. simpl. tauto.
Qed.

Lemma finish_below_zero_never_signals_witness :
  (- 2 ^ 31 < (SetListener (New_yawf NewRouter)).(activeCount) <= 0)%Z
  /\ exists s',
      ServeHTTP_finish (SetListener (New_yawf NewRouter)) = Done s'
      /\ s'.(activeCount) = (-1)%Z
      /\ s'.(cClose) = [].
Proof.
  assert (H : (- 2 ^ 31 < (SetListener (New_yawf NewRouter)).(activeCount) <= 0)%Z)
    by (vm_compute; split; [reflexivity | discriminate]).
  split; [exact H|].
  destruct (finish_below_zero_never_signals (SetListener (New_yawf NewRouter)) H)
    as (s' & E & Hc & Hq & _).
  exists s'. split; [exact E|]. split; [exact Hc | exact Hq].
Defined.

(** [Stop] on an idle server fills the channel of closure; a second
    [Stop], while nothing has received from the channel, blocks on its
    send. *)
Theorem Stop_twice_blocks (s s1 : yawf) :
  s.(activeCount) = 0%Z ->
  s.(cClose) = [] ->
  yawf_Stop s = Done s1 ->
  s1.(cClose) = [true]
  /\ s1.(isStopping) = true
  /\ s1.(listener) = Some false
  /\ yawf_Stop s1 = Blocked.
Proof.
  intros Hc Hq. unfold yawf_Stop.
  destruct (listener s); [|discriminate].
  destruct s as [hs ac li n q st gd sl]. simpl in Hc, Hq. subst n q.
  unfold send_close. simpl. intros [= <-]. simpl. repeat split.
Qed.

Lemma Stop_twice_blocks_witness :
  exists s1,
    yawf_Stop (SetListener (New_yawf NewRouter)) = Done s1
    /\ yawf_Stop s1 = Blocked.
Proof.
  eexists. split; [vm_compute; reflexivity|].
  refine (proj2 (proj2 (proj2 (Stop_twice_blocks (SetListener (New_yawf NewRouter)) _
                                 eq_refl eq_refl _)))).
  vm_compute; reflexivity.
Defined.
